(** * SELD evaluation metrics: a shallow embedding of
    [metrics/SELD_evaluation_metrics.py]

    The Python module keeps running detection / localization counters in a
    [SELDMetrics] object, updates them block by block from two dictionaries
    (reference and prediction) and derives four scores from them.

    Conventions of the embedding
    - Python [int] counters are mathematical integers ([Z]); the [int64]
      that [np.minimum] / [np.maximum] put into [_S], [_D], [_I] is treated
      the same way (no wrap-around at 2^63).
    - NumPy [float64] values are idealised as exact real numbers ([R]):
      rounding, infinities and NaN are outside the model.
    - Dictionaries are [gmap]s keyed by [nat] (block and class indices are
      produced by [range]).
    - The object is mutated in place, so an exception leaves the counters
      as they were when it was raised: every stateful operation returns the
      final object together with its outcome. *)

From Stdlib Require Import Reals Lra ZArith Lia List.
From stdpp Require Import base option gmap list fin_maps.

Local Open Scope Z_scope.

(** ** Numeric helpers *)

(** [eps = np.finfo(np.float).eps], the float64 machine epsilon 2^-52. *)
Definition eps : R := (/ 2 ^ 52)%R.

(** [np.clip(x, lo, hi)], that is [minimum(maximum(x, lo), hi)]. *)
Definition clip (x lo hi : R) : R := Rmin (Rmax x lo) hi.

(** ** Spatial distance functions (module level) *)

Definition distance_between_spherical_coordinates_rad
    (az1 ele1 az2 ele2 : R) : R :=
  let dist := (sin ele1 * sin ele2
               + cos ele1 * cos ele2 * cos (Rabs (az1 - az2)))%R in
  let dist := clip dist (-1) 1 in
  (acos dist * 180 / PI)%R.

Definition distance_between_cartesian_coordinates
    (x1 y1 z1 x2 y2 z2 : R) : R :=
  let dist := sqrt ((x1 - x2) ^ 2 + (y1 - y2) ^ 2 + (z1 - z2) ^ 2)%R in
  let dist := clip dist (-1) 1 in
  (2 * asin (dist / 2.0) * 180 / PI)%R.

(** The Euclidean chord between two points, the quantity the Cartesian
    distance starts from. *)
Definition chord (x1 y1 z1 x2 y2 z2 : R) : R :=
  sqrt ((x1 - x2) ^ 2 + (y1 - y2) ^ 2 + (z1 - z2) ^ 2)%R.

(** ** Early stopping metric *)

(** [np.mean] of a Python list of floats. *)
Definition np_mean (l : list R) : R :=
  (fold_right Rplus 0 l / INR (length l))%R.

(** [sed_error] and [doa_error] are indexed sequences; indexing past the
    end raises [IndexError], rendered as [None]. *)
Definition early_stopping_metric (sed_error doa_error : list R) : option R :=
  s0 ← sed_error !! 0%nat;
  s1 ← sed_error !! 1%nat;
  d0 ← doa_error !! 0%nat;
  d1 ← doa_error !! 1%nat;
  Some (np_mean [s0; (1 - s1)%R; (d0 / 180)%R; (1 - d1)%R]).

(** ** The accumulator object *)

Record SELDMetrics : Type := mkSELDMetrics {
  _TP : Z; _FP : Z; _TN : Z; _FN : Z;
  _S : Z; _D : Z; _I : Z;
  _Nref : Z; _Nsys : Z;
  _total_DE : R; _DE_TP : Z;
  _spatial_T : R; _nb_classes : nat
}.

(** [SELDMetrics.__init__(doa_threshold, nb_classes)] *)
Definition init (doa_threshold : R) (nb_classes : nat) : SELDMetrics :=
  {| _TP := 0; _FP := 0; _TN := 0; _FN := 0;
     _S := 0; _D := 0; _I := 0;
     _Nref := 0; _Nsys := 0;
     _total_DE := 0%R; _DE_TP := 0;
     _spatial_T := doa_threshold; _nb_classes := nb_classes |}.

(** Field updates, one per attribute the ingestion assigns. *)
Definition add_TP (n : Z) (s : SELDMetrics) : SELDMetrics :=
  mkSELDMetrics (_TP s + n) (_FP s) (_TN s) (_FN s) (_S s) (_D s) (_I s)
    (_Nref s) (_Nsys s) (_total_DE s) (_DE_TP s) (_spatial_T s) (_nb_classes s).
Definition add_FP (n : Z) (s : SELDMetrics) : SELDMetrics :=
  mkSELDMetrics (_TP s) (_FP s + n) (_TN s) (_FN s) (_S s) (_D s) (_I s)
    (_Nref s) (_Nsys s) (_total_DE s) (_DE_TP s) (_spatial_T s) (_nb_classes s).
Definition add_TN (n : Z) (s : SELDMetrics) : SELDMetrics :=
  mkSELDMetrics (_TP s) (_FP s) (_TN s + n) (_FN s) (_S s) (_D s) (_I s)
    (_Nref s) (_Nsys s) (_total_DE s) (_DE_TP s) (_spatial_T s) (_nb_classes s).
Definition add_FN (n : Z) (s : SELDMetrics) : SELDMetrics :=
  mkSELDMetrics (_TP s) (_FP s) (_TN s) (_FN s + n) (_S s) (_D s) (_I s)
    (_Nref s) (_Nsys s) (_total_DE s) (_DE_TP s) (_spatial_T s) (_nb_classes s).
Definition add_S (n : Z) (s : SELDMetrics) : SELDMetrics :=
  mkSELDMetrics (_TP s) (_FP s) (_TN s) (_FN s) (_S s + n) (_D s) (_I s)
    (_Nref s) (_Nsys s) (_total_DE s) (_DE_TP s) (_spatial_T s) (_nb_classes s).
Definition add_D (n : Z) (s : SELDMetrics) : SELDMetrics :=
  mkSELDMetrics (_TP s) (_FP s) (_TN s) (_FN s) (_S s) (_D s + n) (_I s)
    (_Nref s) (_Nsys s) (_total_DE s) (_DE_TP s) (_spatial_T s) (_nb_classes s).
Definition add_I (n : Z) (s : SELDMetrics) : SELDMetrics :=
  mkSELDMetrics (_TP s) (_FP s) (_TN s) (_FN s) (_S s) (_D s) (_I s + n)
    (_Nref s) (_Nsys s) (_total_DE s) (_DE_TP s) (_spatial_T s) (_nb_classes s).
Definition add_Nref (n : Z) (s : SELDMetrics) : SELDMetrics :=
  mkSELDMetrics (_TP s) (_FP s) (_TN s) (_FN s) (_S s) (_D s) (_I s)
    (_Nref s + n) (_Nsys s) (_total_DE s) (_DE_TP s) (_spatial_T s) (_nb_classes s).
Definition add_Nsys (n : Z) (s : SELDMetrics) : SELDMetrics :=
  mkSELDMetrics (_TP s) (_FP s) (_TN s) (_FN s) (_S s) (_D s) (_I s)
    (_Nref s) (_Nsys s + n) (_total_DE s) (_DE_TP s) (_spatial_T s) (_nb_classes s).
Definition add_total_DE (x : R) (s : SELDMetrics) : SELDMetrics :=
  mkSELDMetrics (_TP s) (_FP s) (_TN s) (_FN s) (_S s) (_D s) (_I s)
    (_Nref s) (_Nsys s) (_total_DE s + x)%R (_DE_TP s) (_spatial_T s) (_nb_classes s).
Definition add_DE_TP (n : Z) (s : SELDMetrics) : SELDMetrics :=
  mkSELDMetrics (_TP s) (_FP s) (_TN s) (_FN s) (_S s) (_D s) (_I s)
    (_Nref s) (_Nsys s) (_total_DE s) (_DE_TP s + n) (_spatial_T s) (_nb_classes s).

(** ** compute_seld_scores *)

Definition compute_seld_scores (self : SELDMetrics) : R * R * R * R :=
  let ER := (IZR (_S self + _D self + _I self) / (IZR (_Nref self) + eps))%R in
  let prec := (IZR (_TP self) / (IZR (_Nsys self) + eps))%R in
  let recall := (IZR (_TP self) / (IZR (_Nref self) + eps))%R in
  let F := (2 * prec * recall / (prec + recall + eps))%R in
  let DE :=
    if negb (Z.eqb (_DE_TP self) 0)
    then (_total_DE self / (IZR (_DE_TP self) + eps))%R
    else 180%R in
  let DE_prec := (IZR (_DE_TP self) / (IZR (_Nsys self) + eps))%R in
  let DE_recall := (IZR (_DE_TP self) / (IZR (_Nref self) + eps))%R in
  let DE_F := (2 * DE_prec * DE_recall / (DE_prec + DE_recall + eps))%R in
  (ER, F, DE, DE_F).

(** ** Exceptions and in-place mutation *)

Inductive exn : Type := KeyError | IndexError | AxisError.

Inductive outcome (A : Type) : Type :=
  | Ok (a : A)
  | Raise (e : exn).
Arguments Ok {A} a.
Arguments Raise {A} e.

(** A method body: it receives the object, mutates it, and either returns
    a value or raises; the object is returned in both cases. *)
Definition M (A : Type) : Type := SELDMetrics -> SELDMetrics * outcome A.

Definition ret {A} (a : A) : M A := fun s => (s, Ok a).

Definition bind {A B} (m : M A) (k : A -> M B) : M B :=
  fun s =>
    match m s with
    | (s', Ok a) => k a s'
    | (s', Raise e) => (s', Raise e)
    end.

Definition lift {A} (o : outcome A) : M A := fun s => (s, o).
Definition modify (f : SELDMetrics -> SELDMetrics) : M unit :=
  fun s => (f s, Ok tt).
Definition attr {A} (f : SELDMetrics -> A) : M A := fun s => (s, Ok (f s)).

Declare Scope seld_scope.
Delimit Scope seld_scope with seld.
Notation "'let*' x ':=' m 'in' k" := (bind m (fun x => k))
  (at level 10, x pattern, m at level 100, k at level 200) : seld_scope.
Notation "m '>>' k" := (bind m (fun _ => k))
  (at level 90, right associativity) : seld_scope.

(** [for x in xs: acc = body(x, acc)], stopping at the first exception. *)
Fixpoint for_each {X A} (body : X -> A -> M A) (xs : list X) (acc : A) : M A :=
  match xs with
  | [] => ret acc
  | x :: xs' => bind (body x acc) (for_each body xs')
  end.

(** ** Pure pieces of the ingestion *)

(** [d[k]] on a dictionary. *)
Definition getitem {V} (d : gmap nat V) (k : nat) : outcome V :=
  match d !! k with
  | Some v => Ok v
  | None => Raise KeyError
  end.

(** [k in d] on a dictionary. *)
Definition contains {V} (k : nat) (d : gmap nat V) : bool :=
  match d !! k with
  | Some _ => true
  | None => false
  end.

(** [l[0]] on a Python list. *)
Definition first {V} (l : list V) : outcome V :=
  match l with
  | v :: _ => Ok v
  | [] => Raise IndexError
  end.

(** [a[i]] on a NumPy column with a non-negative index. *)
Definition item {V} (a : list V) (i : nat) : outcome V :=
  match nth_error a i with
  | Some v => Ok v
  | None => Raise IndexError
  end.

(** [l.index(v)] guarded by [v in l]: the first position of [v], if any. *)
Fixpoint index_of (v : nat) (l : list nat) : option nat :=
  match l with
  | [] => None
  | w :: l' => if Nat.eqb w v then Some 0%nat
               else option_map S (index_of v l')
  end.

(** [np.squeeze(np.array(values), 1)] on a per-frame list of one-location
    lists: the frames become the rows of an (n, d) array.  An empty list
    gives a 1-D array, which has no axis 1. *)
Definition squeeze {C} (values : list C) : outcome (list C) :=
  match values with
  | [] => Raise AxisError
  | _ => Ok values
  end.

Definition Reqb (x y : R) : bool := if Req_dec_T x y then true else false.
Definition Rleb (x y : R) : bool := if Rle_dec x y then true else false.

(** ** Ingestion

    [update_seld_scores_xyz] and [update_seld_scores] are the same text
    except for three places: the width of a coordinate row, the scaling
    applied to the squeezed array ([* np.pi / 180] in the polar variant)
    and the distance function.  The body is written once over these three
    and instantiated twice below. *)

(** One track of a class in a block: [[frame indices, locations]]. *)
Definition track (Coord : Type) : Type := (list nat * list Coord)%type.

(** The dictionaries handed to the ingestion: [block -> class -> tracks]. *)
Abbreviation annotations Coord := (gmap nat (gmap nat (list (track Coord)))).

Section Ingestion.

Context {Coord : Type}.
(** what is done to every row after [np.squeeze] *)
Variable scale : Coord -> Coord.
(** the distance between a reference row and a predicted row *)
Variable dist : Coord -> Coord -> R.

Local Open Scope seld_scope.

(** [for gt_ind, gt_val in enumerate(gt_ind_list): ...] with the two
    accumulators [total_spatial_dist] and [total_framewise_matching_doa]. *)
Fixpoint match_frames (gt_list pred_list : list Coord)
    (pred_ind_list : list nat) (gt_ind : nat) (gt_ind_list : list nat)
    (total_spatial_dist : R) (total_framewise_matching_doa : Z)
    : outcome (R * Z) :=
  match gt_ind_list with
  | [] => Ok (total_spatial_dist, total_framewise_matching_doa)
  | gt_val :: rest =>
      match index_of gt_val pred_ind_list with
      | Some pred_ind =>
          match item gt_list gt_ind with
          | Ok g =>
              match item pred_list pred_ind with
              | Ok p =>
                  match_frames gt_list pred_list pred_ind_list (S gt_ind) rest
                    (total_spatial_dist + dist g p)%R
                    (total_framewise_matching_doa + 1)
              | Raise e => Raise e
              end
          | Raise e => Raise e
          end
      | None =>
          match_frames gt_list pred_list pred_ind_list (S gt_ind) rest
            total_spatial_dist total_framewise_matching_doa
      end
  end.

(** [np.squeeze(np.array(d[block][class][0][1]), 1)], scaled. *)
Definition locations (tracks : list (track Coord)) : outcome (list Coord) :=
  match first tracks with
  | Ok t =>
      match squeeze (snd t) with
      | Ok a => Ok (map scale a)
      | Raise e => Raise e
      end
  | Raise e => Raise e
  end.

(** [d[block][class][0][0]] *)
Definition frame_indices (tracks : list (track Coord)) : outcome (list nat) :=
  match first tracks with
  | Ok t => Ok (fst t)
  | Raise e => Raise e
  end.

(** The part of the both-present branch that reads the two dictionaries:
    it yields the two accumulators of the frame loop. *)
Definition matched_distance (gt_tracks pred_tracks : list (track Coord))
    : outcome (R * Z) :=
  match locations gt_tracks with
  | Ok gt_list =>
      match locations pred_tracks with
      | Ok pred_list =>
          match frame_indices gt_tracks with
          | Ok gt_ind_list =>
              match frame_indices pred_tracks with
              | Ok pred_ind_list =>
                  match_frames gt_list pred_list pred_ind_list 0 gt_ind_list 0 0
              | Raise e => Raise e
              end
          | Raise e => Raise e
          end
      | Raise e => Raise e
      end
  | Raise e => Raise e
  end.

(** The body of [for class_cnt in range(self._nb_classes)].  The pair
    threaded through is [(loc_FN, loc_FP)]. *)
Definition class_step (pred gt : annotations Coord) (block_cnt class_cnt : nat)
    (loc : Z * Z) : M (Z * Z) :=
  let '(loc_FN, loc_FP) := loc in
  let* gt_b := lift (getitem gt block_cnt) in
  (if contains class_cnt gt_b then modify (add_Nref 1) else ret tt) >>
  let* pred_b := lift (getitem pred block_cnt) in
  (if contains class_cnt pred_b then modify (add_Nsys 1) else ret tt) >>
  if contains class_cnt gt_b && contains class_cnt pred_b then
    let* gt_tracks := lift (getitem gt_b class_cnt) in
    let* pred_tracks := lift (getitem pred_b class_cnt) in
    let* r := lift (matched_distance gt_tracks pred_tracks) in
    let '(total_spatial_dist, total_framewise_matching_doa) := r in
    if Reqb total_spatial_dist 0 && Z.eqb total_framewise_matching_doa 0 then
      modify (add_FN 1) >> ret (loc_FN + 1, loc_FP)
    else
      let avg_spatial_dist :=
        (total_spatial_dist / IZR total_framewise_matching_doa)%R in
      modify (add_total_DE avg_spatial_dist) >>
      modify (add_DE_TP 1) >>
      let* spatial_T := attr _spatial_T in
      if Rleb avg_spatial_dist spatial_T then
        modify (add_TP 1) >> ret (loc_FN, loc_FP)
      else
        modify (add_FN 1) >> ret (loc_FN + 1, loc_FP)
  else if contains class_cnt gt_b && negb (contains class_cnt pred_b) then
    modify (add_FN 1) >> ret (loc_FN + 1, loc_FP)
  else if negb (contains class_cnt gt_b) && contains class_cnt pred_b then
    modify (add_FP 1) >> ret (loc_FN, loc_FP + 1)
  else if negb (contains class_cnt gt_b) && negb (contains class_cnt pred_b) then
    modify (add_TN 1) >> ret (loc_FN, loc_FP)
  else
    ret (loc_FN, loc_FP).

(** The class loop of one block, from [loc_FN, loc_FP = 0, 0]. *)
Definition class_loop (pred gt : annotations Coord) (block_cnt : nat) : M (Z * Z) :=
  let* nb_classes := attr _nb_classes in
  for_each (class_step pred gt block_cnt) (seq 0 nb_classes) (0, 0).

(** The body of [for block_cnt in range(len(gt.keys()))]. *)
Definition block_step (pred gt : annotations Coord) (block_cnt : nat) : M unit :=
  let* loc := class_loop pred gt block_cnt in
  let '(loc_FN, loc_FP) := loc in
  modify (add_S (Z.min loc_FP loc_FN)) >>
  modify (add_D (Z.max 0 (loc_FN - loc_FP))) >>
  modify (add_I (Z.max 0 (loc_FP - loc_FN))).

Definition update_with (pred gt : annotations Coord) : M unit :=
  for_each (fun block_cnt _ => block_step pred gt block_cnt)
           (seq 0 (size gt)) tt.

End Ingestion.

(** A Cartesian row [(x, y, z)] and a polar row [(azimuth, elevation)]. *)
Definition xyz : Type := (R * R * R)%type.
Definition azi_ele : Type := (R * R)%type.

Definition dist_xyz (g p : xyz) : R :=
  let '(gt_x, gt_y, gt_z) := g in
  let '(pred_x, pred_y, pred_z) := p in
  distance_between_cartesian_coordinates gt_x gt_y gt_z pred_x pred_y pred_z.

(** [* np.pi / 180] on a row *)
Definition deg2rad (c : azi_ele) : azi_ele :=
  ((fst c * PI / 180)%R, (snd c * PI / 180)%R).

Definition dist_azi_ele (g p : azi_ele) : R :=
  let '(gt_azi, gt_ele) := g in
  let '(pred_azi, pred_ele) := p in
  distance_between_spherical_coordinates_rad gt_azi gt_ele pred_azi pred_ele.

Definition update_seld_scores_xyz (self : SELDMetrics)
    (pred gt : annotations xyz) : SELDMetrics * outcome unit :=
  update_with (fun c => c) dist_xyz pred gt self.

Definition update_seld_scores (self : SELDMetrics)
    (pred_deg gt_deg : annotations azi_ele) : SELDMetrics * outcome unit :=
  update_with deg2rad dist_azi_ele pred_deg gt_deg self.

(** ** Reference definitions used by the statements *)

(** The chord-length formula with the chord clipped to [0, 2]. *)
Definition chord_to_angle_deg (x1 y1 z1 x2 y2 z2 : R) : R :=
  (2 * asin (clip (chord x1 y1 z1 x2 y2 z2) 0 2 / 2) * 180 / PI)%R.

(** [2 * P * R / (P + R + eps)] with [P = tp / (Nsys + eps)] and
    [R = tp / (Nref + eps)]. *)
Definition precision (tp nsys : Z) : R := (IZR tp / (IZR nsys + eps))%R.
Definition recall (tp nref : Z) : R := (IZR tp / (IZR nref + eps))%R.
Definition f_score (p r : R) : R := (2 * p * r / (p + r + eps))%R.

(** [(S + D + I) / (Nref + eps)] *)
Definition error_rate (s d i nref : Z) : R :=
  ((IZR s + IZR d + IZR i) / (IZR nref + eps))%R.

(** Counter-wise order on two accumulators. *)
Definition counters_le (s s' : SELDMetrics) : Prop :=
  _TP s <= _TP s' /\ _FP s <= _FP s' /\ _TN s <= _TN s' /\ _FN s <= _FN s' /\
  _S s <= _S s' /\ _D s <= _D s' /\ _I s <= _I s' /\
  _Nref s <= _Nref s' /\ _Nsys s <= _Nsys s' /\
  _DE_TP s <= _DE_TP s' /\ (_total_DE s <= _total_DE s')%R.

(** The configuration is never assigned after construction. *)
Definition same_config (s s' : SELDMetrics) : Prop :=
  _spatial_T s' = _spatial_T s /\ _nb_classes s' = _nb_classes s.

(** Two accumulators that agree on every counter except [_TN]. *)
Definition agree_except_TN (s1 s2 : SELDMetrics) : Prop :=
  _TP s1 = _TP s2 /\ _FP s1 = _FP s2 /\ _FN s1 = _FN s2 /\
  _S s1 = _S s2 /\ _D s1 = _D s2 /\ _I s1 = _I s2 /\
  _Nref s1 = _Nref s2 /\ _Nsys s1 = _Nsys s2 /\
  _total_DE s1 = _total_DE s2 /\ _DE_TP s1 = _DE_TP s2.

(** What the both-present branch does once the frame loop has returned
    its two accumulators. *)
Definition score_both (total : R) (n : Z) (loc_FN loc_FP : Z)
    (s : SELDMetrics) : SELDMetrics * outcome (Z * Z) :=
  if Reqb total 0 && Z.eqb n 0 then
    (add_FN 1 s, Ok (loc_FN + 1, loc_FP))
  else
    let avg := (total / IZR n)%R in
    let s1 := add_DE_TP 1 (add_total_DE avg s) in
    if Rleb avg (_spatial_T s) then (add_TP 1 s1, Ok (loc_FN, loc_FP))
    else (add_FN 1 s1, Ok (loc_FN + 1, loc_FP)).

(** The four class-level outcomes and the counter each one increments. *)
Inductive detection : Type := TP_case | FP_case | TN_case | FN_case.

Definition unit_if (b : bool) : Z := if b then 1 else 0.

Definition is_case (o o' : detection) : bool :=
  match o, o' with
  | TP_case, TP_case | FP_case, FP_case
  | TN_case, TN_case | FN_case, FN_case => true
  | _, _ => false
  end.

(** Outcome [o] fired between [s] and [s']: its counter went up by one and
    the three others did not move. *)
Definition fires (o : detection) (s s' : SELDMetrics) : Prop :=
  _TP s' = _TP s + unit_if (is_case o TP_case) /\
  _FP s' = _FP s + unit_if (is_case o FP_case) /\
  _TN s' = _TN s + unit_if (is_case o TN_case) /\
  _FN s' = _FN s + unit_if (is_case o FN_case).

(** The block-local pair mirrors what the class loop did to [_FN] and
    [_FP], and the class loop does not touch [_S], [_D], [_I]. *)
Definition loc_tracks (s0 : SELDMetrics) (loc : Z * Z) (s : SELDMetrics) : Prop :=
  fst loc = _FN s - _FN s0 /\ snd loc = _FP s - _FP s0 /\
  0 <= fst loc /\ 0 <= snd loc /\
  _S s = _S s0 /\ _D s = _D s0 /\ _I s = _I s0.

(** ** Concrete inputs used in the examples *)

(** One frame (index 0) of a source along the x axis. *)
Definition track_x : track xyz := ([0%nat], [(1, 0, 0)%R]).
(** The same frame with the source in the opposite direction. *)
Definition track_minus_x : track xyz := ([0%nat], [(-1, 0, 0)%R]).
(** The same two directions as (azimuth, elevation) in degrees. *)
Definition track_azi0 : track azi_ele := ([0%nat], [(0, 0)%R]).
Definition track_azi180 : track azi_ele := ([0%nat], [(180, 0)%R]).

(** One block holding class 0 only. *)
Definition one_class {C : Type} (t : track C) : annotations C :=
  {[ 0%nat := {[ 0%nat := [t] ]} ]}.

(** One block: classes 0 and 1 in the reference, class 2 predicted. *)
Definition gt_two_classes : annotations xyz :=
  {[ 0%nat := {[ 0%nat := [track_x]; 1%nat := [track_x] ]} ]}.
Definition pred_other_class : annotations xyz :=
  {[ 0%nat := {[ 2%nat := [track_x] ]} ]}.

(** Modelled from the spec: the conversion between the two coordinate
    systems is not part of the module; "the same geometric configuration
    expressed in both coordinate systems" is read with the usual unit-sphere
    convention for azimuth and elevation in radians. *)
Definition unit_vector (c : azi_ele) : xyz :=
  ((cos (snd c) * cos (fst c))%R, (cos (snd c) * sin (fst c))%R, sin (snd c)).

(** ** Definitions used by the further properties *)

(** Relations between the counters of an accumulator. *)
Definition consistent (s : SELDMetrics) : Prop :=
  0 <= _TP s /\ 0 <= _FP s /\ 0 <= _TN s /\ 0 <= _FN s /\
  0 <= _S s /\ 0 <= _D s /\ 0 <= _I s /\
  _TP s <= _DE_TP s /\ _DE_TP s <= _Nref s /\ _DE_TP s <= _Nsys s /\
  _TP s + _FN s <= _Nref s /\ _TP s + _FP s <= _Nsys s.

(** The accumulated error is that of [_DE_TP] means of at most [bound]. *)
Definition localized (bound : R) (s : SELDMetrics) : Prop :=
  0 <= _DE_TP s /\ (0 <= _total_DE s <= bound * IZR (_DE_TP s))%R.

(** The accumulator [s] with the counters of [d] added to its own. *)
Definition shift (d s : SELDMetrics) : SELDMetrics :=
  mkSELDMetrics (_TP s + _TP d) (_FP s + _FP d) (_TN s + _TN d) (_FN s + _FN d)
    (_S s + _S d) (_D s + _D d) (_I s + _I d)
    (_Nref s + _Nref d) (_Nsys s + _Nsys d)
    (_total_DE s + _total_DE d)%R (_DE_TP s + _DE_TP d)
    (_spatial_T s) (_nb_classes s).

(** How many of the classes [cs] are keys of one block. *)
Fixpoint count_present {V : Type} (d_b : gmap nat V) (cs : list nat) : Z :=
  match cs with
  | [] => 0
  | c :: cs' => unit_if (contains c d_b) + count_present d_b cs'
  end.

(** The number of (block, class) memberships of a dictionary inside the
    window of [B] blocks and [n] classes. *)
Fixpoint memberships_in {V : Type} (d : gmap nat (gmap nat V)) (n : nat)
    (bs : list nat) : Z :=
  match bs with
  | [] => 0
  | b :: bs' =>
      match d !! b with
      | Some d_b => count_present d_b (seq 0 n)
      | None => 0
      end + memberships_in d n bs'
  end.

Definition memberships {V : Type} (d : gmap nat (gmap nat V)) (B n : nat) : Z :=
  memberships_in d n (seq 0 B).

(** Two dictionaries that hold the same entries for blocks below [B] and
    classes below [n]. *)
Definition same_window {V : Type} (B n : nat)
    (d d' : gmap nat (gmap nat V)) : Prop :=
  forall b, (b < B)%nat ->
    match d !! b, d' !! b with
    | Some d_b, Some d_b' => forall c, (c < n)%nat -> d_b !! c = d_b' !! c
    | None, None => True
    | _, _ => False
    end.

(** A first track whose location list is not empty and not shorter than
    its frame-index list. *)
Definition well_formed_tracks {Coord : Type} (tracks : list (track Coord)) : Prop :=
  exists t rest, tracks = t :: rest /\ snd t <> [] /\
                 (length (fst t) <= length (snd t))%nat.

(** Every block below [B] is a key, and every class below [n] present in
    it has well-formed tracks. *)
Definition well_formed {Coord : Type} (B n : nat)
    (d : annotations Coord) : Prop :=
  forall b, (b < B)%nat ->
    exists d_b, d !! b = Some d_b /\
      forall c tracks, (c < n)%nat -> d_b !! c = Some tracks ->
                       well_formed_tracks tracks.

(** The dictionary with every list of tracks cut down to its first
    track. *)
Definition first_track_only {Coord : Type} (d : annotations Coord)
    : annotations Coord :=
  fmap (M := gmap nat)
    (fmap (M := gmap nat) (take (A := track Coord) 1)) d.

(** The exception an outcome carries, if any. *)
Definition raised {A : Type} (o : outcome A) : option exn :=
  match o with
  | Ok _ => None
  | Raise e => Some e
  end.

(** [s'] is [s] seen through a threshold at least as large: the same
    memberships and localization totals, the same classes split between
    [_TP] and [_FN], with no fewer of them in [_TP]. *)
Definition more_tolerant (s s' : SELDMetrics) : Prop :=
  (_spatial_T s <= _spatial_T s')%R /\ _nb_classes s = _nb_classes s' /\
  _Nref s = _Nref s' /\ _Nsys s = _Nsys s' /\
  _FP s = _FP s' /\ _TN s = _TN s' /\
  _DE_TP s = _DE_TP s' /\ _total_DE s = _total_DE s' /\
  _TP s <= _TP s' /\ _TP s + _FN s = _TP s' + _FN s'.

(** ** Definitions used to follow a call pair by pair *)

(** The (block, class) pairs of a call with [B] blocks and [n] classes, in
    the order in which the two loops reach them. *)
Definition pairs_of (n : nat) (blocks : list nat) : list (nat * nat) :=
  flat_map (fun b => map (fun c => (b, c)) (seq 0 n)) blocks.

Definition pairs (B n : nat) : list (nat * nat) := pairs_of n (seq 0 B).

(** The four detection counters are the same in [s] and [s']. *)
Definition same_detection (s s' : SELDMetrics) : Prop :=
  _TP s' = _TP s /\ _FP s' = _FP s /\ _TN s' = _TN s /\ _FN s' = _FN s.

(** [fired_in_turn s visited s']: going from [s] to [s'], the detection
    counters moved as one firing per entry of [visited], in that order, and
    not otherwise. *)
Inductive fired_in_turn :
    SELDMetrics -> list (nat * nat * detection) -> SELDMetrics -> Prop :=
  | fired_none (s s' : SELDMetrics) :
      same_detection s s' -> fired_in_turn s [] s'
  | fired_next (s s1 s' : SELDMetrics) (b c : nat) (o : detection)
      (visited : list (nat * nat * detection)) :
      fires o s s1 -> fired_in_turn s1 visited s' ->
      fired_in_turn s ((b, c, o) :: visited) s'.

(** How many entries of [visited] carry the outcome [o]. *)
Fixpoint tally (o : detection) (visited : list (nat * nat * detection)) : Z :=
  match visited with
  | [] => 0
  | (_, o') :: visited' => unit_if (is_case o' o) + tally o visited'
  end.

(** The outcome recorded for a pair is one its two memberships allow. *)
Definition allowed {Coord : Type} (pred gt : annotations Coord)
    (e : nat * nat * detection) : Prop :=
  let '(b, c, o) := e in
  exists gt_b pred_b,
    gt !! b = Some gt_b /\ pred !! b = Some pred_b /\
    match contains c gt_b, contains c pred_b with
    | true, true => o = TP_case \/ o = FN_case
    | true, false => o = FN_case
    | false, true => o = FP_case
    | false, false => o = TN_case
    end.

(** Two frames but a single location: the second frame has no row. *)
Definition track_short : track xyz := ([0%nat; 1%nat], [(1, 0, 0)%R]).

(** Frame 0 listed twice in a prediction, with two different locations. *)
Definition track_twice : track xyz :=
  ([0%nat; 0%nat], [(1, 0, 0)%R; (-1, 0, 0)%R]).

(** One block: class 0 on both sides with the same track, class 1 in the
    reference only (with [gt_two_classes]), class 2 predicted only. *)
Definition pred_mixed : annotations xyz :=
  {[ 0%nat := {[ 0%nat := [track_x]; 2%nat := [track_x] ]} ]}.

(** The accumulator that the block above leaves behind from
    [init 20 3]: one true positive, one false positive, one false negative,
    one substitution. *)
Definition acc_mixed : SELDMetrics :=
  mkSELDMetrics 1 1 0 1 1 0 0 2 2 0 1 20 3.

(** The accumulator left by the polar run on the two opposite directions
    at threshold 90: one localized class with a mean error of 180. *)
Definition acc_polar_far : SELDMetrics :=
  mkSELDMetrics 0 0 0 1 0 1 0 1 1 180 1 90 1.

(** * Properties *)

(** ** The distance functions *)

Section DistanceFacts.

Local Open Scope R_scope.

Lemma clip_bounds x lo hi : lo <= hi -> lo <= clip x lo hi <= hi.
Proof.
  intros Hlh. unfold clip, Rmin, Rmax.
  repeat destruct Rle_dec; lra.
Qed.

Lemma clip_above x lo hi : lo <= hi -> hi <= x -> clip x lo hi = hi.
Proof.
  intros Hlh Hx. unfold clip, Rmin, Rmax.
  repeat destruct Rle_dec; lra.
Qed.

Lemma clip_inside x lo hi : lo <= x <= hi -> clip x lo hi = x.
Proof.
  intros Hx. unfold clip, Rmin, Rmax.
  repeat destruct Rle_dec; lra.
Qed.

Lemma clip_nonneg x hi : 0 <= x -> 0 <= hi -> 0 <= clip x (-1) hi.
Proof.
  intros Hx Hhi. unfold clip, Rmin, Rmax.
  repeat destruct Rle_dec; lra.
Qed.

Lemma asin_half : asin (1 / 2) = PI / 6.
Proof.
  rewrite <- sin_PI6. apply asin_sin.
  pose proof PI_RGT_0. lra.
Qed.

Lemma asin_nonneg x : 0 <= x <= 1 -> 0 <= asin x.
Proof.
  intros Hx.
  destruct (Rle_or_lt 0 (asin x)) as [Hge | Hlt]; [exact Hge |].
  exfalso.
  pose proof (asin_bound x) as Hb.
  pose proof PI_RGT_0 as Hpi.
  assert (Hs : sin (asin x) < 0) by (apply sin_lt_0_var; lra).
  rewrite sin_asin in Hs; lra.
Qed.

Lemma chord_nonneg x1 y1 z1 x2 y2 z2 : 0 <= chord x1 y1 z1 x2 y2 z2.
Proof. apply sqrt_pos. Qed.

Lemma cartesian_unfold x1 y1 z1 x2 y2 z2 :
  distance_between_cartesian_coordinates x1 y1 z1 x2 y2 z2
  = 2 * asin (clip (chord x1 y1 z1 x2 y2 z2) (-1) 1 / 2) * 180 / PI.
Proof.
  unfold distance_between_cartesian_coordinates, chord.
  replace 2.0 with 2 by lra. reflexivity.
Qed.

(** Whenever the chord is at least 1 (the two directions are 60 degrees
    or more apart) the clip to [-1, 1] pins the result to 60 degrees. *)
Lemma cartesian_saturates x1 y1 z1 x2 y2 z2 :
  1 <= chord x1 y1 z1 x2 y2 z2 ->
  distance_between_cartesian_coordinates x1 y1 z1 x2 y2 z2 = 60.
Proof.
  intros Hc. rewrite cartesian_unfold.
  rewrite clip_above by lra.
  rewrite asin_half.
  pose proof PI_RGT_0. field. lra.
Qed.

(** Up to a chord of 1 the clip is harmless and the result is the
    chord-length formula. *)
Lemma cartesian_below_60 x1 y1 z1 x2 y2 z2 :
  chord x1 y1 z1 x2 y2 z2 <= 1 ->
  distance_between_cartesian_coordinates x1 y1 z1 x2 y2 z2
  = chord_to_angle_deg x1 y1 z1 x2 y2 z2.
Proof.
  intros Hc. rewrite cartesian_unfold. unfold chord_to_angle_deg.
  pose proof (chord_nonneg x1 y1 z1 x2 y2 z2) as H0.
  rewrite !clip_inside by lra. reflexivity.
Qed.

Lemma cartesian_nonneg x1 y1 z1 x2 y2 z2 :
  0 <= distance_between_cartesian_coordinates x1 y1 z1 x2 y2 z2.
Proof.
  rewrite cartesian_unfold.
  pose proof (chord_nonneg x1 y1 z1 x2 y2 z2) as Hc.
  pose proof (clip_bounds (chord x1 y1 z1 x2 y2 z2) (-1) 1 ltac:(lra)) as Hb.
  pose proof (clip_nonneg (chord x1 y1 z1 x2 y2 z2) 1 Hc ltac:(lra)) as Hn.
  pose proof (asin_nonneg (clip (chord x1 y1 z1 x2 y2 z2) (-1) 1 / 2)
                ltac:(lra)) as Ha.
  pose proof PI_RGT_0 as Hpi.
  apply Rmult_le_pos; [| left; apply Rinv_0_lt_compat; exact Hpi].
  lra.
Qed.

Lemma cartesian_same x y z :
  distance_between_cartesian_coordinates x y z x y z = 0.
Proof.
  rewrite cartesian_unfold. unfold chord.
  replace ((x - x) ^ 2 + (y - y) ^ 2 + (z - z) ^ 2) with 0 by ring.
  rewrite sqrt_0, clip_inside by lra.
  replace (0 / 2) with 0 by lra.
  rewrite asin_0. pose proof PI_RGT_0. field. lra.
Qed.

Lemma chord_antipodal : chord 1 0 0 (-1) 0 0 = 2.
Proof.
  unfold chord.
  replace ((1 - -1) ^ 2 + (0 - 0) ^ 2 + (0 - 0) ^ 2) with (2 ^ 2) by ring.
  apply sqrt_pow2. lra.
Qed.

Lemma cartesian_antipodal :
  distance_between_cartesian_coordinates 1 0 0 (-1) 0 0 = 60.
Proof. apply cartesian_saturates. rewrite chord_antipodal. lra. Qed.

Lemma spherical_nonneg az1 ele1 az2 ele2 :
  0 <= distance_between_spherical_coordinates_rad az1 ele1 az2 ele2.
Proof.
  unfold distance_between_spherical_coordinates_rad.
  set (d := clip _ _ _).
  pose proof (acos_bound d) as Ha.
  pose proof PI_RGT_0 as Hpi.
  apply Rmult_le_pos; [| left; apply Rinv_0_lt_compat; exact Hpi].
  lra.
Qed.

Lemma acos_m1 : acos (-1) = PI.
Proof. unfold acos. destruct Rle_dec; [reflexivity | lra]. Qed.

(** Azimuth 0 and azimuth 180 degrees on the horizon, in radians. *)
Lemma spherical_antipodal :
  distance_between_spherical_coordinates_rad
    (0 * PI / 180) (0 * PI / 180) (180 * PI / 180) (0 * PI / 180) = 180.
Proof.
  unfold distance_between_spherical_coordinates_rad.
  replace (0 * PI / 180) with 0 by lra.
  replace (180 * PI / 180) with PI by lra.
  replace (0 - PI) with (- PI) by lra.
  rewrite Rabs_Ropp, Rabs_pos_eq by (pose proof PI_RGT_0; lra).
  rewrite sin_0, cos_0, cos_PI.
  replace (0 * 0 + 1 * 1 * -1) with (-1) by ring.
  rewrite clip_inside by lra.
  rewrite acos_m1. pose proof PI_RGT_0. field. lra.
Qed.

End DistanceFacts.

(** ** Scores derived from the counters *)

Lemma eps_pos : (0 < eps)%R.
Proof. unfold eps. apply Rinv_0_lt_compat. apply pow_lt. lra. Qed.

(** C4. [compute_seld_scores] returns [(ER, F, DE, DE_F)] with
    [ER = (S+D+I)/(Nref+eps)], [F] the F-score of the precision
    [TP/(Nsys+eps)] and the recall [TP/(Nref+eps)], [DE_F] the same F-score
    with [DE_TP] in place of [TP], and [DE = total_DE/(DE_TP+eps)] when
    [DE_TP > 0] but the sentinel 180 when [DE_TP = 0]. *)
Theorem compute_seld_scores_formulas (self : SELDMetrics) :
  exists DE : R,
    compute_seld_scores self
    = (error_rate (_S self) (_D self) (_I self) (_Nref self),
       f_score (precision (_TP self) (_Nsys self))
               (recall (_TP self) (_Nref self)),
       DE,
       f_score (precision (_DE_TP self) (_Nsys self))
               (recall (_DE_TP self) (_Nref self)))
    /\ (0 < _DE_TP self ->
        DE = (_total_DE self / (IZR (_DE_TP self) + eps))%R)
    /\ (_DE_TP self = 0 -> DE = 180%R).
Proof.
  unfold compute_seld_scores, error_rate, f_score, precision, recall.
  eexists. split; [| split].
  - rewrite !plus_IZR. reflexivity.
  - intros Hpos. destruct (Z.eqb_spec (_DE_TP self) 0) as [E | _]; [lia |].
    reflexivity.
  - intros Hz. rewrite Hz. reflexivity.
Qed.

(** C10. The true-negative counter does not reach any score: two
    accumulators that agree on every other counter get the same
    [(ER, F, DE, DE_F)]. *)
Theorem compute_seld_scores_ignores_TN (s1 s2 : SELDMetrics) :
  agree_except_TN s1 s2 ->
  compute_seld_scores s1 = compute_seld_scores s2.
Proof.
  intros (HTP & _ & _ & HS & HD & HI & HNref & HNsys & HDE & HDETP).
  unfold compute_seld_scores.
  rewrite HTP, HS, HD, HI, HNref, HNsys, HDE, HDETP. reflexivity.
Qed.

Lemma compute_seld_scores_ignores_TN_witness :
  agree_except_TN (init 20 11) (add_TN 7 (init 20 11))
  /\ compute_seld_scores (init 20 11)
     = compute_seld_scores (add_TN 7 (init 20 11)).
Proof.
  assert (H : agree_except_TN (init 20 11) (add_TN 7 (init 20 11))).
  { unfold agree_except_TN. simpl. repeat split; reflexivity. }
  split; [exact H |].
  apply (compute_seld_scores_ignores_TN _ _ H).
Defined.

(** ** Early stopping metric *)

(** C9. On the pairs [(error_rate, F)] and [(doa_error, frame_recall)]
    [early_stopping_metric] is the unweighted mean of [error_rate],
    [1 - F], [doa_error / 180] and [1 - frame_recall]; on [[0.5, 0.8]] and
    [[40, 0.6]] this is 119/360, which is 0.3306 to four decimals. *)
Theorem early_stopping_metric_mean (error_rate' F doa_err frame_recall : R) :
  early_stopping_metric [error_rate'; F] [doa_err; frame_recall]
  = Some ((error_rate' + (1 - F) + doa_err / 180 + (1 - frame_recall)) / 4)%R
  /\ early_stopping_metric [0.5; 0.8]%R [40; 0.6]%R = Some (119 / 360)%R
  /\ (Rabs (119 / 360 - 0.3306) < 0.0001)%R.
Proof.
  split; [| split].
  - cbn. unfold np_mean. cbn. f_equal. lra.
  - cbn. unfold np_mean. cbn. f_equal. lra.
  - apply Rabs_def1; lra.
Qed.

(** ** Cartesian distance *)

(** C2. At the antipodal unit vectors (1,0,0) and (-1,0,0) the chord is 2
    and the chord-length formula with the chord clipped to [0, 2] gives 180
    degrees, but [distance_between_cartesian_coordinates] clips the chord
    to [-1, 1] and returns 60 degrees. *)
Theorem cartesian_distance_antipodal_is_60 :
  chord 1 0 0 (-1) 0 0 = 2%R
  /\ chord_to_angle_deg 1 0 0 (-1) 0 0 = 180%R
  /\ distance_between_cartesian_coordinates 1 0 0 (-1) 0 0 = 60%R.
Proof.
  split; [apply chord_antipodal | split; [| apply cartesian_antipodal]].
  unfold chord_to_angle_deg. rewrite chord_antipodal.
  rewrite clip_inside by lra.
  replace (2 / 2)%R with 1%R by lra.
  rewrite asin_1. pose proof PI_RGT_0. field. lra.
Qed.

(** ** Ingestion: one class of one block *)

Section IngestionFacts.

Context {Coord : Type}.
Variable scale : Coord -> Coord.
Variable dist : Coord -> Coord -> R.

(** The frame loop only ever adds matches. *)
Lemma match_frames_count gt_list pred_list pred_ind_list gt_ind_list :
  forall gt_ind total n total' n',
    match_frames dist gt_list pred_list pred_ind_list gt_ind gt_ind_list total n
    = Ok (total', n') ->
    n <= n' /\ (n' = n -> total' = total).
Proof.
  induction gt_ind_list as [| gt_val rest IH]; intros gt_ind total n total' n' H;
    simpl in H.
  - inversion H; subst. split; [lia | reflexivity].
  - destruct (index_of gt_val pred_ind_list) as [pred_ind |].
    + destruct (item gt_list gt_ind) as [g | e]; [| discriminate].
      destruct (item pred_list pred_ind) as [p | e]; [| discriminate].
      apply IH in H. destruct H as [Hle Heq]. split; [lia |].
      intros ->. lia.
    + apply IH in H. exact H.
Qed.

Lemma match_frames_total gt_list pred_list pred_ind_list gt_ind_list :
  (forall g p, (0 <= dist g p)%R) ->
  forall gt_ind total n total' n',
    match_frames dist gt_list pred_list pred_ind_list gt_ind gt_ind_list total n
    = Ok (total', n') ->
    (total <= total')%R.
Proof.
  intros Hd.
  induction gt_ind_list as [| gt_val rest IH]; intros gt_ind total n total' n' H;
    simpl in H.
  - inversion H; subst. lra.
  - destruct (index_of gt_val pred_ind_list) as [pred_ind |].
    + destruct (item gt_list gt_ind) as [g | e]; [| discriminate].
      destruct (item pred_list pred_ind) as [p | e]; [| discriminate].
      apply IH in H. specialize (Hd g p). lra.
    + apply IH in H. exact H.
Qed.

Lemma matched_distance_count gt_tracks pred_tracks total n :
  matched_distance scale dist gt_tracks pred_tracks = Ok (total, n) ->
  0 <= n /\ (n = 0 -> total = 0%R).
Proof.
  unfold matched_distance. intros H.
  destruct (locations scale gt_tracks); [| discriminate].
  destruct (locations scale pred_tracks); [| discriminate].
  destruct (frame_indices gt_tracks); [| discriminate].
  destruct (frame_indices pred_tracks); [| discriminate].
  apply match_frames_count in H. exact H.
Qed.

Lemma matched_distance_total gt_tracks pred_tracks total n :
  (forall g p, (0 <= dist g p)%R) ->
  matched_distance scale dist gt_tracks pred_tracks = Ok (total, n) ->
  (0 <= total)%R.
Proof.
  unfold matched_distance. intros Hd H.
  destruct (locations scale gt_tracks); [| discriminate].
  destruct (locations scale pred_tracks); [| discriminate].
  destruct (frame_indices gt_tracks); [| discriminate].
  destruct (frame_indices pred_tracks); [| discriminate].
  apply match_frames_total in H; assumption.
Qed.

(** The class step, read off branch by branch. *)
Lemma class_step_cases pred gt block_cnt class_cnt loc_FN loc_FP s gt_b pred_b :
  gt !! block_cnt = Some gt_b ->
  pred !! block_cnt = Some pred_b ->
  class_step scale dist pred gt block_cnt class_cnt (loc_FN, loc_FP) s
  = match gt_b !! class_cnt, pred_b !! class_cnt with
    | Some gt_tracks, Some pred_tracks =>
        match matched_distance scale dist gt_tracks pred_tracks with
        | Ok (total, n) =>
            score_both total n loc_FN loc_FP (add_Nsys 1 (add_Nref 1 s))
        | Raise e => (add_Nsys 1 (add_Nref 1 s), Raise e)
        end
    | Some _, None => (add_FN 1 (add_Nref 1 s), Ok (loc_FN + 1, loc_FP))
    | None, Some _ => (add_FP 1 (add_Nsys 1 s), Ok (loc_FN, loc_FP + 1))
    | None, None => (add_TN 1 s, Ok (loc_FN, loc_FP))
    end.
Proof.
  intros Hg Hp.
  unfold class_step, bind, lift, modify, ret, attr, getitem, contains.
  rewrite Hg, Hp.
  destruct (gt_b !! class_cnt) as [gt_tracks |],
           (pred_b !! class_cnt) as [pred_tracks |]; simpl; try reflexivity.
  destruct (matched_distance scale dist gt_tracks pred_tracks) as [[total n] | e];
    [| reflexivity].
  unfold score_both.
  destruct (Reqb total 0 && Z.eqb n 0); [reflexivity |].
  simpl. destruct (Rleb _ _); reflexivity.
Qed.

Lemma class_step_no_gt pred gt block_cnt class_cnt loc s :
  gt !! block_cnt = None ->
  class_step scale dist pred gt block_cnt class_cnt loc s = (s, Raise KeyError).
Proof.
  intros Hg. destruct loc as [loc_FN loc_FP].
  unfold class_step, bind, lift, getitem. rewrite Hg. reflexivity.
Qed.

Lemma class_step_no_pred pred gt block_cnt class_cnt loc s gt_b :
  gt !! block_cnt = Some gt_b ->
  pred !! block_cnt = None ->
  class_step scale dist pred gt block_cnt class_cnt loc s
  = ((if contains class_cnt gt_b then add_Nref 1 s else s), Raise KeyError).
Proof.
  intros Hg Hp. destruct loc as [loc_FN loc_FP].
  unfold class_step, bind, lift, modify, ret, getitem. rewrite Hg, Hp.
  destruct (contains class_cnt gt_b); reflexivity.
Qed.

End IngestionFacts.

Lemma fires_unique o o' s s' : fires o s s' -> fires o' s s' -> o' = o.
Proof.
  unfold fires. intros (H1 & H2 & H3 & H4) (H1' & H2' & H3' & H4').
  destruct o, o'; simpl in *; try reflexivity; lia.
Qed.

(** The both-present branch moves exactly one of [_TP] and [_FN]. *)
Lemma score_both_outcome total n loc_FN loc_FP s :
  exists s' loc' o,
    score_both total n loc_FN loc_FP s = (s', Ok loc')
    /\ fires o s s' /\ (o = TP_case \/ o = FN_case).
Proof.
  unfold score_both.
  destruct (Reqb total 0 && Z.eqb n 0).
  - eexists _, _, FN_case. split; [reflexivity |].
    split; [| right; reflexivity]. unfold fires; simpl; lia.
  - simpl. destruct (Rleb _ _).
    + eexists _, _, TP_case. split; [reflexivity |].
      split; [| left; reflexivity]. unfold fires; simpl; lia.
    + eexists _, _, FN_case. split; [reflexivity |].
      split; [| right; reflexivity]. unfold fires; simpl; lia.
Qed.

(** Whenever the class step of a block returns, exactly one of the four
    outcomes has fired for that (class, block) pair, and which one is fixed
    by the two memberships: both present gives TP or FN, ground truth only
    FN, prediction only FP, neither TN. *)
Theorem class_step_exactly_one_outcome {Coord : Type}
    (scale : Coord -> Coord) (dist : Coord -> Coord -> R)
    (pred gt : annotations Coord) (block_cnt class_cnt : nat)
    (loc loc' : Z * Z) (s s' : SELDMetrics) :
  class_step scale dist pred gt block_cnt class_cnt loc s = (s', Ok loc') ->
  exists gt_b pred_b o,
    gt !! block_cnt = Some gt_b /\ pred !! block_cnt = Some pred_b /\
    fires o s s' /\
    (forall o', fires o' s s' -> o' = o) /\
    match contains class_cnt gt_b, contains class_cnt pred_b with
    | true, true => o = TP_case \/ o = FN_case
    | true, false => o = FN_case
    | false, true => o = FP_case
    | false, false => o = TN_case
    end.
Proof.
  intros H. destruct loc as [loc_FN loc_FP].
  destruct (gt !! block_cnt) as [gt_b |] eqn:Hg;
    [| rewrite class_step_no_gt in H by exact Hg; discriminate].
  destruct (pred !! block_cnt) as [pred_b |] eqn:Hp;
    [| rewrite (class_step_no_pred _ _ _ _ _ _ _ _ _ Hg Hp) in H; discriminate].
  rewrite (class_step_cases _ _ _ _ _ _ _ _ _ _ _ Hg Hp) in H.
  exists gt_b, pred_b. unfold contains.
  destruct (gt_b !! class_cnt) as [gt_tracks |],
           (pred_b !! class_cnt) as [pred_tracks |].
  - destruct (matched_distance scale dist gt_tracks pred_tracks)
      as [[total n] | e]; [| discriminate].
    destruct (score_both_outcome total n loc_FN loc_FP
                (add_Nsys 1 (add_Nref 1 s))) as (s1 & l1 & o & E & F & Ho).
    rewrite E in H. inversion H; subst s1 l1. exists o.
    assert (F' : fires o s s') by exact F.
    repeat split; try assumption; try apply F'.
    intros o' Ho'. exact (fires_unique _ _ _ _ F' Ho').
  - inversion H; subst. exists FN_case.
    assert (F : fires FN_case s (add_FN 1 (add_Nref 1 s)))
      by (unfold fires; simpl; lia).
    repeat split; try apply F; try reflexivity.
    intros o' Ho'. exact (fires_unique _ _ _ _ F Ho').
  - inversion H; subst. exists FP_case.
    assert (F : fires FP_case s (add_FP 1 (add_Nsys 1 s)))
      by (unfold fires; simpl; lia).
    repeat split; try apply F; try reflexivity.
    intros o' Ho'. exact (fires_unique _ _ _ _ F Ho').
  - inversion H; subst. exists TN_case.
    assert (F : fires TN_case s (add_TN 1 s))
      by (unfold fires; simpl; lia).
    repeat split; try apply F; try reflexivity.
    intros o' Ho'. exact (fires_unique _ _ _ _ F Ho').
Qed.

Lemma class_step_exactly_one_outcome_witness :
  exists gt_b pred_b o,
    one_class track_x !! 0%nat = Some gt_b /\
    pred_other_class !! 0%nat = Some pred_b /\
    fires o (init 20 3) (add_FN 1 (add_Nref 1 (init 20 3))) /\
    o = FN_case.
Proof.
  destruct (class_step_exactly_one_outcome (fun c => c) dist_xyz
              pred_other_class (one_class track_x) 0 0 (0, 0) (1, 0)
              (init 20 3) (add_FN 1 (add_Nref 1 (init 20 3)))
              ltac:(vm_compute; reflexivity))
    as (gt_b & pred_b & o & Hg & Hp & Hf & _ & Ho).
  exists gt_b, pred_b, o. repeat split; try assumption; try apply Hf.
  vm_compute in Hg. inversion Hg; subst gt_b.
  vm_compute in Hp. inversion Hp; subst pred_b.
  exact Ho.
Defined.

(** The both-present branch once at least one frame has matched. *)
Lemma class_step_matched {Coord : Type}
    (scale : Coord -> Coord) (dist : Coord -> Coord -> R)
    (pred gt : annotations Coord) (block_cnt class_cnt : nat)
    (loc_FN loc_FP : Z) (s : SELDMetrics)
    (gt_b pred_b : gmap nat (list (track Coord)))
    (gt_tracks pred_tracks : list (track Coord)) (total : R) (n : Z) :
  gt !! block_cnt = Some gt_b ->
  pred !! block_cnt = Some pred_b ->
  gt_b !! class_cnt = Some gt_tracks ->
  pred_b !! class_cnt = Some pred_tracks ->
  matched_distance scale dist gt_tracks pred_tracks = Ok (total, n) ->
  n <> 0 ->
  class_step scale dist pred gt block_cnt class_cnt (loc_FN, loc_FP) s
  = if Rleb (total / IZR n) (_spatial_T s)
    then (add_TP 1 (add_DE_TP 1 (add_total_DE (total / IZR n)
                                   (add_Nsys 1 (add_Nref 1 s)))),
          Ok (loc_FN, loc_FP))
    else (add_FN 1 (add_DE_TP 1 (add_total_DE (total / IZR n)
                                   (add_Nsys 1 (add_Nref 1 s)))),
          Ok (loc_FN + 1, loc_FP)).
Proof.
  intros Hg Hp Hgc Hpc Hm Hn.
  rewrite (class_step_cases _ _ _ _ _ _ _ _ _ _ _ Hg Hp), Hgc, Hpc, Hm.
  unfold score_both.
  destruct (Z.eqb_spec n 0) as [E | _]; [contradiction |].
  rewrite andb_false_r. reflexivity.
Qed.



(** ** Loops *)

Lemma for_each_preserves {X A : Type} (P : SELDMetrics -> SELDMetrics -> Prop)
    (body : X -> A -> M A) :
  (forall s, P s s) ->
  (forall s1 s2 s3, P s1 s2 -> P s2 s3 -> P s1 s3) ->
  (forall x a s, P s (fst (body x a s))) ->
  forall xs a s, P s (fst (for_each body xs a s)).
Proof.
  intros Hrefl Htrans Hbody.
  induction xs as [| x xs IH]; intros a s; simpl.
  - apply Hrefl.
  - unfold bind. specialize (Hbody x a s).
    destruct (body x a s) as [s' [a' | e]]; simpl in *.
    + eapply Htrans; [exact Hbody | apply IH].
    + exact Hbody.
Qed.

Lemma for_each_returns {X A : Type} (Q : A -> SELDMetrics -> Prop)
    (body : X -> A -> M A) :
  (forall x a s a' s', Q a s -> body x a s = (s', Ok a') -> Q a' s') ->
  forall xs a s a' s',
    Q a s -> for_each body xs a s = (s', Ok a') -> Q a' s'.
Proof.
  intros Hbody.
  induction xs as [| x xs IH]; intros a s a' s' HQ H; simpl in H.
  - inversion H; subst. exact HQ.
  - unfold bind in H.
    destruct (body x a s) as [s1 [a1 | e]] eqn:E; [| discriminate].
    eapply IH; [| exact H]. eapply Hbody; eassumption.
Qed.

Lemma for_each_raises {X A : Type} (Inv : SELDMetrics -> Prop)
    (body : X -> A -> M A) (x : X) :
  (forall y a s, Inv s -> Inv (fst (body y a s))) ->
  (forall a s, Inv s -> exists e, snd (body x a s) = Raise e) ->
  forall xs a s,
    In x xs -> Inv s -> exists e, snd (for_each body xs a s) = Raise e.
Proof.
  intros Hinv Hx.
  induction xs as [| y xs IH]; intros a s Hin HI; [destruct Hin |].
  simpl. unfold bind.
  pose proof (Hinv y a s HI) as HI'.
  destruct (body y a s) as [s' [a' | e]] eqn:E; simpl in *.
  - destruct Hin as [-> | Hin].
    + destruct (Hx a s HI) as [e He]. rewrite E in He. discriminate.
    + apply IH; assumption.
  - exists e. reflexivity.
Qed.

Lemma counters_le_refl s : counters_le s s.
Proof. unfold counters_le. repeat split; try lia; lra. Qed.

Lemma counters_le_trans s1 s2 s3 :
  counters_le s1 s2 -> counters_le s2 s3 -> counters_le s1 s3.
Proof. unfold counters_le. intros H1 H2. repeat split; try lia; lra. Qed.

Lemma same_config_refl s : same_config s s.
Proof. split; reflexivity. Qed.

Lemma same_config_trans s1 s2 s3 :
  same_config s1 s2 -> same_config s2 s3 -> same_config s1 s3.
Proof. unfold same_config. intros [? ?] [? ?]. split; congruence. Qed.

(** ** Ingestion: blocks and whole calls *)

Section WholeCall.

Context {Coord : Type}.
Variable scale : Coord -> Coord.
Variable dist : Coord -> Coord -> R.

Lemma score_both_same_config total n loc_FN loc_FP s :
  same_config s (fst (score_both total n loc_FN loc_FP s)).
Proof.
  unfold score_both.
  destruct (Reqb total 0 && Z.eqb n 0); [split; reflexivity |].
  simpl. destruct (Rleb _ _); split; reflexivity.
Qed.

Lemma class_step_same_config (pred gt : annotations Coord) block_cnt class_cnt loc s :
  same_config s (fst (class_step scale dist pred gt block_cnt class_cnt loc s)).
Proof.
  destruct loc as [loc_FN loc_FP].
  destruct (gt !! block_cnt) as [gt_b |] eqn:Hg;
    [| rewrite class_step_no_gt by exact Hg; apply same_config_refl].
  destruct (pred !! block_cnt) as [pred_b |] eqn:Hp.
  2:{ rewrite (class_step_no_pred _ _ _ _ _ _ _ _ _ Hg Hp).
      destruct (contains class_cnt gt_b); split; reflexivity. }
  rewrite (class_step_cases _ _ _ _ _ _ _ _ _ _ _ Hg Hp).
  destruct (gt_b !! class_cnt) as [gt_tracks |],
           (pred_b !! class_cnt) as [pred_tracks |]; try (split; reflexivity).
  destruct (matched_distance scale dist gt_tracks pred_tracks) as [[total n] | e];
    [| split; reflexivity].
  apply (score_both_same_config total n loc_FN loc_FP (add_Nsys 1 (add_Nref 1 s))).
Qed.

Lemma class_loop_same_config (pred gt : annotations Coord) block_cnt s :
  same_config s (fst (class_loop scale dist pred gt block_cnt s)).
Proof.
  unfold class_loop, bind, attr.
  apply (for_each_preserves same_config);
    [apply same_config_refl | apply same_config_trans |].
  intros; apply class_step_same_config.
Qed.

Lemma block_step_same_config (pred gt : annotations Coord) block_cnt s :
  same_config s (fst (block_step scale dist pred gt block_cnt s)).
Proof.
  unfold block_step, bind.
  pose proof (class_loop_same_config pred gt block_cnt s) as H.
  destruct (class_loop scale dist pred gt block_cnt s) as [s1 [[loc_FN loc_FP] | e]];
    simpl in *; exact H.
Qed.

Lemma class_step_loc_tracks (pred gt : annotations Coord) block_cnt class_cnt
    s0 loc s loc' s' :
  loc_tracks s0 loc s ->
  class_step scale dist pred gt block_cnt class_cnt loc s = (s', Ok loc') ->
  loc_tracks s0 loc' s'.
Proof.
  intros HQ H. destruct loc as [loc_FN loc_FP].
  destruct (gt !! block_cnt) as [gt_b |] eqn:Hg;
    [| rewrite class_step_no_gt in H by exact Hg; discriminate].
  destruct (pred !! block_cnt) as [pred_b |] eqn:Hp;
    [| rewrite (class_step_no_pred _ _ _ _ _ _ _ _ _ Hg Hp) in H; discriminate].
  rewrite (class_step_cases _ _ _ _ _ _ _ _ _ _ _ Hg Hp) in H.
  unfold loc_tracks in *; simpl in HQ.
  destruct (gt_b !! class_cnt) as [gt_tracks |],
           (pred_b !! class_cnt) as [pred_tracks |].
  - destruct (matched_distance scale dist gt_tracks pred_tracks)
      as [[total n] | e]; [| discriminate].
    unfold score_both in H.
    destruct (Reqb total 0 && Z.eqb n 0);
      [| simpl in H; destruct (Rleb _ _)];
      inversion H; subst; simpl; lia.
  - inversion H; subst; simpl; lia.
  - inversion H; subst; simpl; lia.
  - inversion H; subst; simpl; lia.
Qed.

Lemma class_loop_loc_tracks (pred gt : annotations Coord) block_cnt s loc s1 :
  class_loop scale dist pred gt block_cnt s = (s1, Ok loc) ->
  loc_tracks s loc s1.
Proof.
  unfold class_loop, bind, attr. intros H.
  eapply (for_each_returns (loc_tracks s)); [| | exact H].
  - intros; eapply class_step_loc_tracks; eassumption.
  - unfold loc_tracks; simpl; lia.
Qed.

Lemma block_step_returns (pred gt : annotations Coord) block_cnt s s' :
  block_step scale dist pred gt block_cnt s = (s', Ok tt) ->
  exists s1 loc_FN loc_FP,
    class_loop scale dist pred gt block_cnt s = (s1, Ok (loc_FN, loc_FP))
    /\ s' = add_I (Z.max 0 (loc_FP - loc_FN))
              (add_D (Z.max 0 (loc_FN - loc_FP))
                 (add_S (Z.min loc_FP loc_FN) s1)).
Proof.
  unfold block_step, bind, modify. intros H.
  destruct (class_loop scale dist pred gt block_cnt s)
    as [s1 [[loc_FN loc_FP] | e]]; [| discriminate].
  inversion H; subst. exists s1, loc_FN, loc_FP. split; reflexivity.
Qed.

(** Monotonicity needs distances that are never negative. *)
Hypothesis dist_nonneg : forall g p, (0 <= dist g p)%R.

Lemma score_both_counters_le total n loc_FN loc_FP s :
  0 <= n -> (n = 0 -> total = 0%R) -> (0 <= total)%R ->
  counters_le s (fst (score_both total n loc_FN loc_FP s)).
Proof.
  intros Hn Hz Ht. unfold score_both, Reqb.
  destruct (Req_dec_T total 0) as [E0 | NE0], (Z.eqb_spec n 0) as [En | NEn];
    simpl.
  1:{ unfold counters_le; simpl. repeat split; try lia; lra. }
  2:{ exfalso. apply NE0, Hz, En. }
  all: assert (Havg : (0 <= total / IZR n)%R)
    by (apply Rmult_le_pos; [exact Ht |];
        left; apply Rinv_0_lt_compat, IZR_lt; lia).
  all: destruct (Rleb _ _); unfold counters_le; simpl;
    repeat split; try lia; lra.
Qed.

Lemma class_step_counters_le (pred gt : annotations Coord) block_cnt class_cnt loc s :
  counters_le s (fst (class_step scale dist pred gt block_cnt class_cnt loc s)).
Proof.
  destruct loc as [loc_FN loc_FP].
  destruct (gt !! block_cnt) as [gt_b |] eqn:Hg;
    [| rewrite class_step_no_gt by exact Hg; apply counters_le_refl].
  destruct (pred !! block_cnt) as [pred_b |] eqn:Hp.
  2:{ rewrite (class_step_no_pred _ _ _ _ _ _ _ _ _ Hg Hp).
      destruct (contains class_cnt gt_b); unfold counters_le; simpl;
        repeat split; try lia; lra. }
  rewrite (class_step_cases _ _ _ _ _ _ _ _ _ _ _ Hg Hp).
  destruct (gt_b !! class_cnt) as [gt_tracks |],
           (pred_b !! class_cnt) as [pred_tracks |];
    try (unfold counters_le; simpl; repeat split; try lia; lra).
  destruct (matched_distance scale dist gt_tracks pred_tracks)
    as [[total n] | e] eqn:Hm;
    [| unfold counters_le; simpl; repeat split; try lia; lra].
  destruct (matched_distance_count _ _ _ _ _ _ Hm) as [Hn Hz].
  pose proof (matched_distance_total _ _ _ _ _ _ dist_nonneg Hm) as Ht.
  eapply counters_le_trans;
    [| apply (score_both_counters_le total n loc_FN loc_FP _ Hn Hz Ht)].
  unfold counters_le; simpl; repeat split; try lia; lra.
Qed.

Lemma block_step_counters_le (pred gt : annotations Coord) block_cnt s :
  counters_le s (fst (block_step scale dist pred gt block_cnt s)).
Proof.
  unfold block_step, bind, modify.
  destruct (class_loop scale dist pred gt block_cnt s)
    as [s1 [[loc_FN loc_FP] | e]] eqn:E.
  - pose proof (class_loop_loc_tracks _ _ _ _ _ _ E) as HQ.
    unfold loc_tracks in HQ; simpl in HQ.
    assert (H1 : counters_le s s1).
    { replace s1 with (fst (class_loop scale dist pred gt block_cnt s))
        by (rewrite E; reflexivity).
      unfold class_loop, bind, attr.
      apply (for_each_preserves counters_le);
        [apply counters_le_refl | apply counters_le_trans |].
      intros; apply class_step_counters_le. }
    eapply counters_le_trans; [exact H1 |].
    unfold counters_le; simpl. repeat split; try lia; lra.
  - replace s1 with (fst (class_loop scale dist pred gt block_cnt s))
      by (rewrite E; reflexivity).
    unfold class_loop, bind, attr. simpl.
    apply (for_each_preserves counters_le);
      [apply counters_le_refl | apply counters_le_trans |].
    intros; apply class_step_counters_le.
Qed.

Lemma update_with_counters_le (pred gt : annotations Coord) s :
  counters_le s (fst (update_with scale dist pred gt s)).
Proof.
  unfold update_with.
  apply (for_each_preserves counters_le);
    [apply counters_le_refl | apply counters_le_trans |].
  intros; apply block_step_counters_le.
Qed.

End WholeCall.

(** ** The two entry points *)

Lemma dist_xyz_nonneg g p : (0 <= dist_xyz g p)%R.
Proof.
  destruct g as [[gt_x gt_y] gt_z], p as [[pred_x pred_y] pred_z].
  apply cartesian_nonneg.
Qed.

Lemma dist_azi_ele_nonneg g p : (0 <= dist_azi_ele g p)%R.
Proof.
  destruct g as [gt_azi gt_ele], p as [pred_azi pred_ele].
  apply spherical_nonneg.
Qed.

(** A block whose prediction entry is missing cannot be completed as soon
    as there is one class to look at. *)
Lemma block_step_missing_pred {Coord : Type}
    (scale : Coord -> Coord) (dist : Coord -> Coord -> R)
    (pred gt : annotations Coord) (block_cnt : nat) (s : SELDMetrics) :
  (0 < _nb_classes s)%nat ->
  pred !! block_cnt = None ->
  exists e, snd (block_step scale dist pred gt block_cnt s) = Raise e.
Proof.
  intros Hn Hp. unfold block_step, class_loop, bind, attr.
  destruct (_nb_classes s) as [| k]; [lia |].
  cbn [seq for_each fst snd]. unfold bind.
  destruct (gt !! block_cnt) as [gt_b |] eqn:Hg.
  - rewrite (class_step_no_pred _ _ _ _ _ _ _ _ _ Hg Hp). eexists; reflexivity.
  - rewrite class_step_no_gt by exact Hg. eexists; reflexivity.
Qed.

Lemma update_with_missing_pred {Coord : Type}
    (scale : Coord -> Coord) (dist : Coord -> Coord -> R)
    (pred gt : annotations Coord) (b : nat) (s : SELDMetrics) :
  (0 < _nb_classes s)%nat ->
  (b < size gt)%nat ->
  pred !! b = None ->
  exists e, snd (update_with scale dist pred gt s) = Raise e.
Proof.
  intros Hn Hb Hp. unfold update_with.
  apply (for_each_raises (fun s => (0 < _nb_classes s)%nat) _ b).
  - intros y a s0 Hs0.
    destruct (block_step_same_config scale dist pred gt y s0) as [_ Hc].
    rewrite Hc. exact Hs0.
  - intros a s0 Hs0. apply block_step_missing_pred; assumption.
  - apply in_seq. lia.
  - exact Hn.
Qed.

(** C3 (as amended). With at least one class configured, a predictions
    mapping that lacks an entry for some block index below the number of
    ground-truth blocks makes either ingestion call raise: the missing
    block is not treated as empty. *)
Theorem missing_prediction_block_raises (self : SELDMetrics) :
  (0 < _nb_classes self)%nat ->
  (forall (pred gt : annotations xyz) (b : nat),
      (b < size gt)%nat -> pred !! b = None ->
      exists e, snd (update_seld_scores_xyz self pred gt) = Raise e)
  /\ (forall (pred_deg gt_deg : annotations azi_ele) (b : nat),
      (b < size gt_deg)%nat -> pred_deg !! b = None ->
      exists e, snd (update_seld_scores self pred_deg gt_deg) = Raise e).
Proof.
  intros Hn. split; intros pred gt b Hb Hp.
  - unfold update_seld_scores_xyz. eapply update_with_missing_pred; eassumption.
  - unfold update_seld_scores. eapply update_with_missing_pred; eassumption.
Qed.

Lemma missing_prediction_block_raises_witness :
  exists e,
    snd (update_seld_scores_xyz (init 20 11) ∅ (one_class track_x)) = Raise e.
Proof.
  refine (proj1 (missing_prediction_block_raises (init 20 11) _)
            ∅ (one_class track_x) 0%nat _ _).
  - simpl. lia.
  - vm_compute. lia.
  - reflexivity.
Defined.

(** C3 (as stated) fails: with one ground-truth block holding class 0 and
    no prediction entry for that block, both variants stop with a
    [KeyError] after counting the reference, whereas an empty prediction
    block would have completed with one false negative, one deletion and
    ten true negatives. *)
Lemma missing_prediction_block_not_empty :
  update_seld_scores_xyz (init 20 11) ∅ (one_class track_x)
    <> update_seld_scores_xyz (init 20 11) {[ 0%nat := ∅ ]} (one_class track_x)
  /\ update_seld_scores_xyz (init 20 11) ∅ (one_class track_x)
    = (add_Nref 1 (init 20 11), Raise KeyError)
  /\ update_seld_scores_xyz (init 20 11) {[ 0%nat := ∅ ]} (one_class track_x)
    = (add_D 1 (add_TN 10 (add_FN 1 (add_Nref 1 (init 20 11)))), Ok tt)
  /\ update_seld_scores (init 20 11) ∅ (one_class track_azi0)
    = (add_Nref 1 (init 20 11), Raise KeyError)
  /\ update_seld_scores (init 20 11) {[ 0%nat := ∅ ]} (one_class track_azi0)
    = (add_D 1 (add_TN 10 (add_FN 1 (add_Nref 1 (init 20 11)))), Ok tt).
Proof.
  split; [| repeat split; vm_compute; reflexivity].
  intros H. apply (f_equal snd) in H. vm_compute in H. discriminate.
Qed.

(** C6. For every block that is processed to its end, with [fn] and [fp]
    the block-local counts left by the class loop (the increase of [_FN]
    and [_FP] over the block), [_S] grows by [min fp fn], [_D] by
    [max 0 (fn - fp)] and [_I] by [max 0 (fp - fn)]; the three increments
    are non-negative and satisfy S + D = fn and S + I = fp, so non-negative
    [_S], [_D], [_I] stay non-negative. *)
Theorem block_step_sdi_decomposition {Coord : Type}
    (scale : Coord -> Coord) (dist : Coord -> Coord -> R)
    (pred gt : annotations Coord) (block_cnt : nat) (s s' : SELDMetrics) :
  block_step scale dist pred gt block_cnt s = (s', Ok tt) ->
  exists s1 fn fp,
    class_loop scale dist pred gt block_cnt s = (s1, Ok (fn, fp)) /\
    fn = _FN s' - _FN s /\ fp = _FP s' - _FP s /\
    _S s' = _S s + Z.min fp fn /\
    _D s' = _D s + Z.max 0 (fn - fp) /\
    _I s' = _I s + Z.max 0 (fp - fn) /\
    (_S s' - _S s) + (_D s' - _D s) = fn /\
    (_S s' - _S s) + (_I s' - _I s) = fp /\
    0 <= _S s' - _S s /\ 0 <= _D s' - _D s /\ 0 <= _I s' - _I s /\
    (0 <= _S s -> 0 <= _S s') /\ (0 <= _D s -> 0 <= _D s') /\
    (0 <= _I s -> 0 <= _I s').
Proof.
  intros H.
  destruct (block_step_returns _ _ _ _ _ _ _ H) as (s1 & fn & fp & Hloop & ->).
  pose proof (class_loop_loc_tracks _ _ _ _ _ _ _ _ Hloop) as HQ.
  unfold loc_tracks in HQ; simpl in HQ.
  exists s1, fn, fp. simpl.
  split; [exact Hloop |]. repeat split; lia.
Qed.

Lemma block_step_sdi_decomposition_witness :
  exists s1 fn fp,
    class_loop (fun c => c) dist_xyz pred_other_class gt_two_classes 0
      (init 20 3) = (s1, Ok (fn, fp)) /\
    fn = 2 /\ fp = 1.
Proof.
  destruct (block_step_sdi_decomposition (fun c => c) dist_xyz
              pred_other_class gt_two_classes 0 (init 20 3)
              (add_I 0 (add_D 1 (add_S 1
                 (add_FP 1 (add_Nsys 1 (add_FN 2 (add_Nref 2 (init 20 3))))))))
              ltac:(vm_compute; reflexivity))
    as (s1 & fn & fp & Hloop & Hfn & Hfp & _).
  exists s1, fn, fp. split; [exact Hloop |].
  split; [rewrite Hfn | rewrite Hfp]; reflexivity.
Defined.

(** C8. Whatever the starting accumulator and whatever the input, and
    whether the call returns or raises, neither ingestion variant lowers
    any of [_TP], [_FP], [_TN], [_FN], [_S], [_D], [_I], [_Nref], [_Nsys],
    [_DE_TP] or [_total_DE]. *)
Theorem ingestion_monotone (self : SELDMetrics)
    (pred gt : annotations xyz) (pred_deg gt_deg : annotations azi_ele) :
  counters_le self (fst (update_seld_scores_xyz self pred gt))
  /\ counters_le self (fst (update_seld_scores self pred_deg gt_deg)).
Proof.
  split.
  - apply update_with_counters_le. exact dist_xyz_nonneg.
  - apply update_with_counters_le. exact dist_azi_ele_nonneg.
Qed.

Lemma SELDMetrics_ext (s s' : SELDMetrics) :
  _TP s = _TP s' -> _FP s = _FP s' -> _TN s = _TN s' -> _FN s = _FN s' ->
  _S s = _S s' -> _D s = _D s' -> _I s = _I s' ->
  _Nref s = _Nref s' -> _Nsys s = _Nsys s' ->
  _total_DE s = _total_DE s' -> _DE_TP s = _DE_TP s' ->
  _spatial_T s = _spatial_T s' -> _nb_classes s = _nb_classes s' ->
  s = s'.
Proof. destruct s, s'; simpl; intros; subst; reflexivity. Qed.

Lemma Rleb_true x y : (x <= y)%R -> Rleb x y = true.
Proof. intros H. unfold Rleb. destruct Rle_dec; [reflexivity | contradiction]. Qed.

Lemma Rleb_false x y : (y < x)%R -> Rleb x y = false.
Proof. intros H. unfold Rleb. destruct Rle_dec; [lra | reflexivity]. Qed.

(** A call on one block with class 0 on both sides and at least one matched
    frame, for an accumulator fresh from the constructor. *)
Lemma update_one_class {Coord : Type}
    (scale : Coord -> Coord) (dist : Coord -> Coord -> R)
    (g p : track Coord) (T total : R) (n : Z) :
  matched_distance scale dist [g] [p] = Ok (total, n) ->
  n <> 0 ->
  update_with scale dist (one_class p) (one_class g) (init T 1)
  = if Rleb (total / IZR n) T
    then (add_TP 1 (add_DE_TP 1 (add_total_DE (total / IZR n)
            (add_Nsys 1 (add_Nref 1 (init T 1))))), Ok tt)
    else (add_D 1 (add_FN 1 (add_DE_TP 1 (add_total_DE (total / IZR n)
            (add_Nsys 1 (add_Nref 1 (init T 1)))))), Ok tt).
Proof.
  intros Hm Hn.
  unfold update_with.
  change (size (one_class g)) with 1%nat.
  cbn [seq for_each]. unfold bind at 1.
  unfold block_step, class_loop, bind, attr.
  cbn [_nb_classes init seq for_each]. unfold bind.
  rewrite (class_step_matched scale dist (one_class p) (one_class g) 0 0 0 0
             (init T 1) {[ 0%nat := [g] ]} {[ 0%nat := [p] ]} [g] [p] total n
             eq_refl eq_refl eq_refl eq_refl Hm Hn).
  change (_spatial_T (init T 1)) with T.
  destruct (Rleb (total / IZR n) T); reflexivity.
Qed.

(** C1. The directions (azimuth 0, elevation 0) and (azimuth 180,
    elevation 0) are the unit vectors (1,0,0) and (-1,0,0).  On this pair
    the Cartesian distance is 60 degrees and the polar distance 180 degrees,
    and with a threshold of 90 degrees the Cartesian ingestion records a
    true positive with total error 60 while the polar ingestion records a
    false negative and a deletion with total error 180. *)
Theorem cartesian_polar_disagree :
  unit_vector (deg2rad (0, 0)%R) = (1, 0, 0)%R
  /\ unit_vector (deg2rad (180, 0)%R) = (-1, 0, 0)%R
  /\ dist_xyz (1, 0, 0)%R (-1, 0, 0)%R = 60%R
  /\ dist_azi_ele (deg2rad (0, 0)%R) (deg2rad (180, 0)%R) = 180%R
  /\ update_seld_scores_xyz (init 90 1)
       (one_class track_minus_x) (one_class track_x)
     = (mkSELDMetrics 1 0 0 0 0 0 0 1 1 60 1 90 1, Ok tt)
  /\ update_seld_scores (init 90 1)
       (one_class track_azi180) (one_class track_azi0)
     = (mkSELDMetrics 0 0 0 1 0 1 0 1 1 180 1 90 1, Ok tt).
Proof.
  assert (Hc : dist_xyz (1, 0, 0)%R (-1, 0, 0)%R = 60%R)
    by apply cartesian_antipodal.
  assert (Hs : dist_azi_ele (deg2rad (0, 0)%R) (deg2rad (180, 0)%R) = 180%R)
    by apply spherical_antipodal.
  repeat split; try assumption.
  - unfold unit_vector, deg2rad; cbn [fst snd].
    replace (0 * PI / 180)%R with 0%R by lra.
    rewrite sin_0, cos_0.
    replace (1 * 1)%R with 1%R by lra. replace (1 * 0)%R with 0%R by lra.
    reflexivity.
  - unfold unit_vector, deg2rad; cbn [fst snd].
    replace (0 * PI / 180)%R with 0%R by lra.
    replace (180 * PI / 180)%R with PI by lra.
    rewrite sin_0, cos_0, sin_PI, cos_PI.
    replace (1 * -1)%R with (-1)%R by lra. replace (1 * 0)%R with 0%R by lra.
    reflexivity.
  - unfold update_seld_scores_xyz.
    rewrite (update_one_class _ _ track_x track_minus_x 90
               (0 + dist_xyz (1, 0, 0) (-1, 0, 0))%R (0 + 1)
               eq_refl ltac:(lia)).
    rewrite Hc.
    replace ((0 + 60) / IZR (0 + 1))%R with 60%R
      by (change (0 + 1) with 1; lra).
    rewrite Rleb_true by lra.
    f_equal. apply SELDMetrics_ext; try reflexivity.
    cbn [_total_DE add_TP add_D add_FN add_DE_TP add_total_DE add_Nsys
         add_Nref init]. lra.
  - unfold update_seld_scores.
    rewrite (update_one_class _ _ track_azi0 track_azi180 90
               (0 + dist_azi_ele (deg2rad (0, 0)) (deg2rad (180, 0)))%R (0 + 1)
               eq_refl ltac:(lia)).
    rewrite Hs.
    replace ((0 + 180) / IZR (0 + 1))%R with 180%R
      by (change (0 + 1) with 1; lra).
    rewrite Rleb_false by lra.
    f_equal. apply SELDMetrics_ext; try reflexivity.
    cbn [_total_DE add_TP add_D add_FN add_DE_TP add_total_DE add_Nsys
         add_Nref init]. lra.
Qed.

(** ** Two runs from the constructor defaults *)

(** One block in which neither side has any class: eleven true negatives,
    and the localization error stays at its sentinel. *)
Example no_data_run :
  update_seld_scores_xyz (init 20 11) {[ 0%nat := ∅ ]} {[ 0%nat := ∅ ]}
  = (add_TN 11 (init 20 11), Ok tt)
  /\ snd (fst (compute_seld_scores (add_TN 11 (init 20 11)))) = 180%R.
Proof. split; [vm_compute; reflexivity | reflexivity]. Qed.

(** Prediction identical to the reference for one class: a true positive
    with zero localization error. *)
Example exact_match_run :
  update_seld_scores_xyz (init 20 1) (one_class track_x) (one_class track_x)
  = (mkSELDMetrics 1 0 0 0 0 0 0 1 1 0 1 20 1, Ok tt).
Proof.
  unfold update_seld_scores_xyz.
  rewrite (update_one_class _ _ track_x track_x 20
             (0 + dist_xyz (1, 0, 0) (1, 0, 0))%R (0 + 1)
             eq_refl ltac:(lia)).
  cbn [dist_xyz]. rewrite cartesian_same.
  replace ((0 + 0) / IZR (0 + 1))%R with 0%R
    by (change (0 + 1) with 1; lra).
  rewrite Rleb_true by lra.
  f_equal. apply SELDMetrics_ext; try reflexivity.
  cbn [_total_DE add_TP add_DE_TP add_total_DE add_Nsys add_Nref init]. lra.
Qed.

(** * Further properties of the module *)

(** ** Distance functions: range, symmetry, identical points *)

Section DistanceRange.

Local Open Scope R_scope.

Lemma asin_le_half x : 0 <= x <= 1 / 2 -> asin x <= PI / 6.
Proof.
  intros Hx.
  pose proof PI_RGT_0 as Hpi.
  pose proof (asin_bound x) as Hb.
  apply sin_incr_0; try lra.
  rewrite sin_asin by lra. rewrite sin_PI6. lra.
Qed.

Lemma cartesian_distance_range_aux (x1 y1 z1 x2 y2 z2 : R) :
  0 <= distance_between_cartesian_coordinates x1 y1 z1 x2 y2 z2 <= 60.
Proof.
  split; [apply cartesian_nonneg |].
  rewrite cartesian_unfold.
  pose proof (chord_nonneg x1 y1 z1 x2 y2 z2) as Hc.
  pose proof (clip_bounds (chord x1 y1 z1 x2 y2 z2) (-1) 1 ltac:(lra)) as Hb.
  pose proof (clip_nonneg (chord x1 y1 z1 x2 y2 z2) 1 Hc ltac:(lra)) as Hn.
  pose proof (asin_le_half (clip (chord x1 y1 z1 x2 y2 z2) (-1) 1 / 2)
                ltac:(lra)) as Ha.
  pose proof PI_RGT_0 as Hpi.
  apply (Rmult_le_reg_r PI); [exact Hpi |].
  replace (2 * asin (clip (chord x1 y1 z1 x2 y2 z2) (-1) 1 / 2) * 180 / PI * PI)
    with (360 * asin (clip (chord x1 y1 z1 x2 y2 z2) (-1) 1 / 2))
    by (field; lra).
  lra.
Qed.

(** X1. The Cartesian distance is never negative and never above 60
    degrees, whatever the six coordinates are. *)
Theorem cartesian_distance_range (x1 y1 z1 x2 y2 z2 : R) :
  0 <= distance_between_cartesian_coordinates x1 y1 z1 x2 y2 z2 <= 60.
Proof. apply cartesian_distance_range_aux. Qed.

(** X2. As soon as the two points are at least a chord of 1 apart the
    Cartesian distance is exactly 60 degrees. *)
Theorem cartesian_distance_far_points (x1 y1 z1 x2 y2 z2 : R) :
  1 <= chord x1 y1 z1 x2 y2 z2 ->
  distance_between_cartesian_coordinates x1 y1 z1 x2 y2 z2 = 60.
Proof. apply cartesian_saturates. Qed.

Lemma cartesian_distance_far_points_witness :
  distance_between_cartesian_coordinates 0 1 0 0 (-1) 0 = 60.
Proof.
  apply cartesian_distance_far_points.
  unfold chord.
  replace ((0 - 0) ^ 2 + (1 - -1) ^ 2 + (0 - 0) ^ 2) with (2 ^ 2) by ring.
  rewrite sqrt_pow2; lra.
Defined.

Lemma spherical_distance_range_aux (az1 ele1 az2 ele2 : R) :
  0 <= distance_between_spherical_coordinates_rad az1 ele1 az2 ele2 <= 180.
Proof.
  split; [apply spherical_nonneg |].
  unfold distance_between_spherical_coordinates_rad.
  set (d := clip _ _ _).
  pose proof (acos_bound d) as Ha.
  pose proof PI_RGT_0 as Hpi.
  apply (Rmult_le_reg_r PI); [exact Hpi |].
  replace (acos d * 180 / PI * PI) with (180 * acos d) by (field; lra).
  lra.
Qed.

(** X3. The polar distance always lies between 0 and 180 degrees. *)
Theorem spherical_distance_range (az1 ele1 az2 ele2 : R) :
  0 <= distance_between_spherical_coordinates_rad az1 ele1 az2 ele2 <= 180.
Proof. apply spherical_distance_range_aux. Qed.

(** X4. Both distance functions are symmetric in their two points. *)
Theorem distances_symmetric (x1 y1 z1 x2 y2 z2 az1 ele1 az2 ele2 : R) :
  distance_between_cartesian_coordinates x1 y1 z1 x2 y2 z2
  = distance_between_cartesian_coordinates x2 y2 z2 x1 y1 z1
  /\ distance_between_spherical_coordinates_rad az1 ele1 az2 ele2
     = distance_between_spherical_coordinates_rad az2 ele2 az1 ele1.
Proof.
  split.
  - unfold distance_between_cartesian_coordinates.
    replace ((x2 - x1) ^ 2 + (y2 - y1) ^ 2 + (z2 - z1) ^ 2)
      with ((x1 - x2) ^ 2 + (y1 - y2) ^ 2 + (z1 - z2) ^ 2) by ring.
    reflexivity.
  - unfold distance_between_spherical_coordinates_rad.
    rewrite (Rabs_minus_sym az2 az1).
    replace (sin ele2 * sin ele1 + cos ele2 * cos ele1 * cos (Rabs (az1 - az2)))
      with (sin ele1 * sin ele2 + cos ele1 * cos ele2 * cos (Rabs (az1 - az2)))
      by ring.
    reflexivity.
Qed.

Lemma cos_Rabs x : cos (Rabs x) = cos x.
Proof.
  unfold Rabs. destruct (Rcase_abs x); [apply cos_neg | reflexivity].
Qed.

Lemma distances_identical_points_aux (az ele : R) :
  distance_between_spherical_coordinates_rad az ele az ele = 0.
Proof.
  unfold distance_between_spherical_coordinates_rad.
  replace (az - az) with 0 by ring.
  rewrite Rabs_R0, cos_0.
  pose proof (sin2_cos2 ele) as H. unfold Rsqr in H.
  replace (sin ele * sin ele + cos ele * cos ele * 1) with 1 by lra.
  rewrite clip_inside by lra.
  rewrite acos_1. pose proof PI_RGT_0. field. lra.
Qed.

(** X5. A point is at distance 0 from itself under both functions. *)
Theorem distances_identical_points (x y z az ele : R) :
  distance_between_cartesian_coordinates x y z x y z = 0
  /\ distance_between_spherical_coordinates_rad az ele az ele = 0.
Proof.
  split; [apply cartesian_same | apply distances_identical_points_aux].
Qed.

(** X6. On the horizon (both elevations 0) the polar distance is the
    azimuth difference in degrees, as long as that difference is at most
    half a turn. *)
Theorem spherical_distance_on_horizon (az1 az2 : R) :
  Rabs (az1 - az2) <= PI ->
  distance_between_spherical_coordinates_rad az1 0 az2 0
  = Rabs (az1 - az2) * 180 / PI.
Proof.
  intros Hd.
  unfold distance_between_spherical_coordinates_rad.
  rewrite sin_0, cos_0.
  replace (0 * 0 + 1 * 1 * cos (Rabs (az1 - az2)))
    with (cos (Rabs (az1 - az2))) by ring.
  pose proof (COS_bound (Rabs (az1 - az2))) as Hb.
  rewrite clip_inside by lra.
  rewrite acos_cos; [reflexivity |].
  split; [apply Rabs_pos | exact Hd].
Qed.

Lemma spherical_distance_on_horizon_witness :
  distance_between_spherical_coordinates_rad (PI / 2) 0 0 0
  = Rabs (PI / 2 - 0) * 180 / PI.
Proof.
  apply spherical_distance_on_horizon.
  pose proof PI_RGT_0.
  rewrite Rabs_pos_eq; lra.
Defined.

End DistanceRange.

Section Consistency.

Local Open Scope R_scope.

(** The cosine of the angle between two directions. *)
Lemma chord_of_unit_vectors az1 ele1 az2 ele2 :
  (cos ele1 * cos az1 - cos ele2 * cos az2) ^ 2
  + (cos ele1 * sin az1 - cos ele2 * sin az2) ^ 2
  + (sin ele1 - sin ele2) ^ 2
  = 2 - 2 * (sin ele1 * sin ele2 + cos ele1 * cos ele2 * cos (az1 - az2)).
Proof.
  rewrite cos_minus.
  pose proof (sin2_cos2 ele1) as E1. pose proof (sin2_cos2 ele2) as E2.
  pose proof (sin2_cos2 az1) as A1. pose proof (sin2_cos2 az2) as A2.
  unfold Rsqr in *.
  set (s1 := sin ele1) in *. set (c1 := cos ele1) in *.
  set (s2 := sin ele2) in *. set (c2 := cos ele2) in *.
  set (sa1 := sin az1) in *. set (ca1 := cos az1) in *.
  set (sa2 := sin az2) in *. set (ca2 := cos az2) in *.
  replace ((c1 * ca1 - c2 * ca2) ^ 2 + (c1 * sa1 - c2 * sa2) ^ 2 + (s1 - s2) ^ 2)
    with (c1 * c1 * (sa1 * sa1 + ca1 * ca1) + c2 * c2 * (sa2 * sa2 + ca2 * ca2)
          + (s1 * s1 + c1 * c1) + (s2 * s2 + c2 * c2)
          - c1 * c1 - c2 * c2
          - 2 * (s1 * s2 + c1 * c2 * (ca1 * ca2 + sa1 * sa2))) by ring.
  rewrite E1, E2, A1, A2. ring.
Qed.

(** X7. For two directions given as (azimuth, elevation) in radians whose
    unit vectors are at most a chord of 1 apart, the Cartesian distance of
    the unit vectors equals the polar distance of the angles. *)
Theorem cartesian_matches_polar_within_60 (p q : azi_ele) :
  (let '(x1, y1, z1) := unit_vector p in
   let '(x2, y2, z2) := unit_vector q in
   chord x1 y1 z1 x2 y2 z2 <= 1) ->
  dist_xyz (unit_vector p) (unit_vector q) = dist_azi_ele p q.
Proof.
  destruct p as [az1 ele1], q as [az2 ele2].
  unfold unit_vector, dist_xyz, dist_azi_ele; cbn [fst snd].
  intros Hc.
  rewrite cartesian_unfold.
  unfold distance_between_spherical_coordinates_rad.
  rewrite cos_Rabs.
  set (dot := sin ele1 * sin ele2 + cos ele1 * cos ele2 * cos (az1 - az2)).
  pose proof (chord_of_unit_vectors az1 ele1 az2 ele2) as Hsq. fold dot in Hsq.
  unfold chord in *. rewrite Hsq in *.
  set (X := 2 - 2 * dot) in *.
  assert (HX0 : 0 <= X).
  { rewrite <- Hsq. repeat apply Rplus_le_le_0_compat; apply pow2_ge_0. }
  assert (HX1 : X <= 1).
  { pose proof (sqrt_pos X) as Hp.
    rewrite <- (sqrt_sqrt X HX0). nra. }
  assert (Hdot : 1 / 2 <= dot <= 1) by (unfold X in *; lra).
  rewrite (clip_inside dot) by lra.
  rewrite (clip_inside (sqrt X)) by (pose proof (sqrt_pos X); lra).
  pose proof (acos_bound dot) as Hth.
  pose proof (cos_acos dot ltac:(lra)) as Hcos.
  set (th := acos dot) in *. clearbody th.
  pose proof PI_RGT_0 as Hpi.
  assert (Hs0 : 0 <= sin (th / 2)) by (apply sin_ge_0; lra).
  assert (Hhalf : cos th = 1 - 2 * sin (th / 2) * sin (th / 2)).
  { rewrite <- cos_2a_sin. f_equal. field. }
  assert (Hsqrt : sqrt X = 2 * sin (th / 2)).
  { apply sqrt_lem_1; [exact HX0 | lra |].
    unfold X. rewrite <- Hcos, Hhalf. ring. }
  rewrite Hsqrt.
  replace (2 * sin (th / 2) / 2) with (sin (th / 2)) by field.
  rewrite asin_sin by lra.
  field. lra.
Qed.

(** Two directions on the horizon exactly 60 degrees apart. *)
Lemma cartesian_matches_polar_within_60_witness :
  dist_xyz (unit_vector (0, 0)) (unit_vector (PI / 3, 0))
  = dist_azi_ele (0, 0) (PI / 3, 0).
Proof.
  apply cartesian_matches_polar_within_60.
  unfold unit_vector, chord; cbn [fst snd].
  rewrite sin_0, cos_0, cos_PI3, sin_PI3.
  replace ((1 * 1 - 1 * (1 / 2)) ^ 2 + (1 * 0 - 1 * (sqrt 3 / 2)) ^ 2
           + (0 - 0) ^ 2)
    with ((1 + sqrt 3 * sqrt 3) / 4) by field.
  rewrite sqrt_sqrt by lra.
  replace ((1 + 3) / 4) with 1 by lra.
  rewrite sqrt_1. lra.
Defined.

End Consistency.

(** ** Invariants of the accumulator *)

Lemma for_each_keeps {X A : Type} (Inv : SELDMetrics -> Prop)
    (body : X -> A -> M A) :
  (forall x a s, Inv s -> Inv (fst (body x a s))) ->
  forall xs a s, Inv s -> Inv (fst (for_each body xs a s)).
Proof.
  intros Hbody xs a s.
  apply (for_each_preserves (fun s s' => Inv s -> Inv s') body); auto.
Qed.

Section Invariants.

Context {Coord : Type}.
Variable scale : Coord -> Coord.
Variable dist : Coord -> Coord -> R.

Lemma class_step_consistent (pred gt : annotations Coord) block_cnt class_cnt loc s :
  consistent s ->
  consistent (fst (class_step scale dist pred gt block_cnt class_cnt loc s)).
Proof.
  intros Hs. destruct loc as [loc_FN loc_FP].
  destruct (gt !! block_cnt) as [gt_b |] eqn:Hg;
    [| rewrite class_step_no_gt by exact Hg; exact Hs].
  destruct (pred !! block_cnt) as [pred_b |] eqn:Hp.
  2:{ rewrite (class_step_no_pred _ _ _ _ _ _ _ _ _ Hg Hp).
      destruct (contains class_cnt gt_b); [| exact Hs].
      unfold consistent in *; simpl; lia. }
  rewrite (class_step_cases _ _ _ _ _ _ _ _ _ _ _ Hg Hp).
  destruct (gt_b !! class_cnt) as [gt_tracks |],
           (pred_b !! class_cnt) as [pred_tracks |];
    try (unfold consistent in *; simpl; lia).
  destruct (matched_distance scale dist gt_tracks pred_tracks)
    as [[total n] | e]; [| unfold consistent in *; simpl; lia].
  unfold score_both.
  destruct (Reqb total 0 && Z.eqb n 0);
    [| cbn zeta; destruct (Rleb _ _)];
    unfold consistent in *; simpl; lia.
Qed.

Lemma block_step_consistent (pred gt : annotations Coord) block_cnt s :
  consistent s ->
  consistent (fst (block_step scale dist pred gt block_cnt s)).
Proof.
  intros Hs. unfold block_step, bind, modify.
  assert (H1 : consistent (fst (class_loop scale dist pred gt block_cnt s))).
  { unfold class_loop, bind, attr.
    apply for_each_keeps; [| exact Hs].
    intros; apply class_step_consistent; assumption. }
  destruct (class_loop scale dist pred gt block_cnt s)
    as [s1 [[loc_FN loc_FP] | e]] eqn:E; [| exact H1].
  pose proof (class_loop_loc_tracks _ _ _ _ _ _ _ _ E) as HQ.
  unfold loc_tracks in HQ; simpl in HQ, H1.
  unfold consistent in *; simpl. lia.
Qed.

Lemma update_with_consistent (pred gt : annotations Coord) s :
  consistent s -> consistent (fst (update_with scale dist pred gt s)).
Proof.
  intros Hs. unfold update_with.
  apply for_each_keeps; [| exact Hs].
  intros; apply block_step_consistent; assumption.
Qed.

Lemma update_with_same_config (pred gt : annotations Coord) s :
  same_config s (fst (update_with scale dist pred gt s)).
Proof.
  unfold update_with.
  apply (for_each_preserves same_config);
    [apply same_config_refl | apply same_config_trans |].
  intros; apply block_step_same_config.
Qed.

(** Distances between 0 and [bound] keep the accumulated error within
    [bound] per localized class. *)
Variable bound : R.
Hypothesis dist_range : forall g p, (0 <= dist g p <= bound)%R.

Lemma match_frames_bound gt_list pred_list pred_ind_list gt_ind_list :
  forall gt_ind total n total' n',
    match_frames dist gt_list pred_list pred_ind_list gt_ind gt_ind_list total n
    = Ok (total', n') ->
    (total <= total' /\ total' - total <= bound * IZR (n' - n))%R.
Proof.
  induction gt_ind_list as [| gt_val rest IH]; intros gt_ind total n total' n' H;
    cbn [match_frames] in H.
  - inversion H; subst. rewrite Z.sub_diag. lra.
  - destruct (index_of gt_val pred_ind_list) as [pred_ind |].
    + destruct (item gt_list gt_ind) as [g | e]; [| discriminate].
      destruct (item pred_list pred_ind) as [p | e]; [| discriminate].
      apply IH in H. specialize (dist_range g p).
      replace (n' - n) with ((n' - (n + 1)) + 1) by lia.
      rewrite plus_IZR. lra.
    + apply IH in H. exact H.
Qed.

Lemma matched_distance_bound gt_tracks pred_tracks total n :
  matched_distance scale dist gt_tracks pred_tracks = Ok (total, n) ->
  (0 <= total <= bound * IZR n)%R.
Proof.
  unfold matched_distance. intros H.
  destruct (locations scale gt_tracks); [| discriminate].
  destruct (locations scale pred_tracks); [| discriminate].
  destruct (frame_indices gt_tracks); [| discriminate].
  destruct (frame_indices pred_tracks); [| discriminate].
  apply match_frames_bound in H. rewrite Z.sub_0_r in H. lra.
Qed.

Lemma score_both_localized total n loc_FN loc_FP s :
  0 <= n -> (n = 0 -> total = 0%R) -> (0 <= total <= bound * IZR n)%R ->
  localized bound s ->
  localized bound (fst (score_both total n loc_FN loc_FP s)).
Proof.
  intros Hn Hz Ht [Hd Hs]. unfold score_both, Reqb.
  destruct (Req_dec_T total 0) as [E0 | NE0], (Z.eqb_spec n 0) as [En | NEn];
    cbn [andb fst].
  1:{ split; assumption. }
  2:{ exfalso. apply NE0, Hz, En. }
  all: assert (Hpos : (0 < IZR n)%R) by (apply IZR_lt; lia).
  all: assert (Havg : (0 <= total / IZR n <= bound)%R)
    by (split;
        [apply Rmult_le_pos; [lra | left; apply Rinv_0_lt_compat, Hpos]
        | apply (Rmult_le_reg_r (IZR n)); [exact Hpos |];
          replace (total / IZR n * IZR n)%R with total by (field; lra); lra]).
  all: cbn zeta; destruct (Rleb _ _); unfold localized; cbn;
    rewrite plus_IZR; split; [lia | lra | lia | lra].
Qed.

Lemma class_step_localized (pred gt : annotations Coord) block_cnt class_cnt loc s :
  localized bound s ->
  localized bound (fst (class_step scale dist pred gt block_cnt class_cnt loc s)).
Proof.
  intros Hs. destruct loc as [loc_FN loc_FP].
  destruct (gt !! block_cnt) as [gt_b |] eqn:Hg;
    [| rewrite class_step_no_gt by exact Hg; exact Hs].
  destruct (pred !! block_cnt) as [pred_b |] eqn:Hp.
  2:{ rewrite (class_step_no_pred _ _ _ _ _ _ _ _ _ Hg Hp).
      destruct (contains class_cnt gt_b); exact Hs. }
  rewrite (class_step_cases _ _ _ _ _ _ _ _ _ _ _ Hg Hp).
  destruct (gt_b !! class_cnt) as [gt_tracks |],
           (pred_b !! class_cnt) as [pred_tracks |]; try exact Hs.
  destruct (matched_distance scale dist gt_tracks pred_tracks)
    as [[total n] | e] eqn:Hm; [| exact Hs].
  destruct (matched_distance_count _ _ _ _ _ _ Hm) as [Hn Hz].
  pose proof (matched_distance_bound _ _ _ _ Hm) as Ht.
  apply score_both_localized; assumption.
Qed.

Lemma update_with_localized (pred gt : annotations Coord) s :
  localized bound s -> localized bound (fst (update_with scale dist pred gt s)).
Proof.
  intros Hs. unfold update_with.
  apply for_each_keeps; [| exact Hs].
  intros b a s0 Hs0. unfold block_step, bind, modify.
  assert (H1 : localized bound (fst (class_loop scale dist pred gt b s0))).
  { unfold class_loop, bind, attr.
    apply for_each_keeps; [| exact Hs0].
    intros; apply class_step_localized; assumption. }
  destruct (class_loop scale dist pred gt b s0)
    as [s1 [[loc_FN loc_FP] | e]]; exact H1.
Qed.

End Invariants.

Lemma consistent_init T n : consistent (init T n).
Proof. unfold consistent; simpl; lia. Qed.

Lemma localized_init bound T n : localized bound (init T n).
Proof. unfold localized; simpl. split; [lia | lra]. Qed.

Lemma localized_weaken b1 b2 s :
  (b1 <= b2)%R -> localized b1 s -> localized b2 s.
Proof.
  intros Hb [Hd Hs]. split; [exact Hd |].
  assert (H0 : (0 <= IZR (_DE_TP s))%R) by (apply IZR_le; exact Hd).
  nra.
Qed.

Lemma dist_xyz_range g p : (0 <= dist_xyz g p <= 60)%R.
Proof.
  destruct g as [[gt_x gt_y] gt_z], p as [[pred_x pred_y] pred_z].
  apply cartesian_distance_range_aux.
Qed.

Lemma dist_azi_ele_range g p : (0 <= dist_azi_ele g p <= 180)%R.
Proof.
  destruct g as [gt_azi gt_ele], p as [pred_azi pred_ele].
  apply spherical_distance_range_aux.
Qed.

(** X8. The counter relations [consistent] (all detection and error-rate
    counters non-negative, [_TP <= _DE_TP <= _Nref, _Nsys],
    [_TP + _FN <= _Nref], [_TP + _FP <= _Nsys]) survive every ingestion
    call of either variant, whether it returns or raises. *)
Theorem ingestion_keeps_consistent (self : SELDMetrics)
    (pred gt : annotations xyz) (pred_deg gt_deg : annotations azi_ele) :
  consistent self ->
  consistent (fst (update_seld_scores_xyz self pred gt))
  /\ consistent (fst (update_seld_scores self pred_deg gt_deg)).
Proof.
  intros Hs. split; apply update_with_consistent; exact Hs.
Qed.

Lemma ingestion_keeps_consistent_witness :
  consistent (fst (update_seld_scores_xyz (init 20 11)
                     (one_class track_minus_x) (one_class track_x)))
  /\ consistent (fst (update_seld_scores (init 20 11)
                        (one_class track_azi180) (one_class track_azi0))).
Proof.
  apply ingestion_keeps_consistent. apply consistent_init.
Defined.

(** X9. Starting from an accumulator whose total error is that of
    [_DE_TP] means of at most 60 degrees (a fresh one, for instance), the
    Cartesian ingestion keeps that bound and the polar ingestion keeps the
    bound of 180 degrees per localized class. *)
Theorem ingestion_keeps_localized (self : SELDMetrics)
    (pred gt : annotations xyz) (pred_deg gt_deg : annotations azi_ele) :
  localized 60 self ->
  localized 60 (fst (update_seld_scores_xyz self pred gt))
  /\ localized 180 (fst (update_seld_scores self pred_deg gt_deg)).
Proof.
  intros Hs. split.
  - apply update_with_localized; [exact dist_xyz_range | exact Hs].
  - apply update_with_localized; [exact dist_azi_ele_range |].
    apply (localized_weaken 60); [lra | exact Hs].
Qed.

Lemma ingestion_keeps_localized_witness :
  localized 60 (fst (update_seld_scores_xyz (init 20 11)
                       (one_class track_minus_x) (one_class track_x)))
  /\ localized 180 (fst (update_seld_scores (init 20 11)
                           (one_class track_azi180) (one_class track_azi0))).
Proof.
  apply ingestion_keeps_localized. apply localized_init.
Defined.

(** ** Ranges of the scores *)

Lemma ratio_range (a b : Z) :
  0 <= a <= b -> (0 <= IZR a / (IZR b + eps) < 1)%R.
Proof.
  intros [Ha Hab].
  pose proof eps_pos as He.
  assert (H0 : (0 <= IZR a)%R) by (apply IZR_le; exact Ha).
  assert (H1 : (IZR a <= IZR b)%R) by (apply IZR_le; exact Hab).
  assert (Hden : (0 < IZR b + eps)%R) by lra.
  split.
  - apply Rmult_le_pos; [exact H0 | left; apply Rinv_0_lt_compat, Hden].
  - apply (Rmult_lt_reg_r (IZR b + eps)); [exact Hden |].
    replace (IZR a / (IZR b + eps) * (IZR b + eps))%R with (IZR a)
      by (field; lra).
    lra.
Qed.

Lemma f_score_range (p r : R) :
  (0 <= p < 1 -> 0 <= r < 1 -> 0 <= f_score p r < 1)%R.
Proof.
  intros Hp Hr. unfold f_score.
  pose proof eps_pos as He.
  assert (Hden : (0 < p + r + eps)%R) by lra.
  assert (Hnum : (0 <= 2 * p * r <= p + r)%R) by nra.
  split.
  - apply Rmult_le_pos; [lra | left; apply Rinv_0_lt_compat, Hden].
  - apply (Rmult_lt_reg_r (p + r + eps)); [exact Hden |].
    replace (2 * p * r / (p + r + eps) * (p + r + eps))%R with (2 * p * r)%R
      by (field; lra).
    lra.
Qed.

(** X10. For an accumulator whose counters are [consistent], the error
    rate is non-negative and both F-scores lie in [0, 1]. *)
Theorem scores_in_range (self : SELDMetrics) :
  consistent self ->
  let '(ER, F, _, DE_F) := compute_seld_scores self in
  (0 <= ER /\ 0 <= F <= 1 /\ 0 <= DE_F <= 1)%R.
Proof.
  intros (HTP & HFP & HTN & HFN & HS & HD & HI & H1 & H2 & H3 & H4 & H5).
  unfold compute_seld_scores.
  pose proof eps_pos as He.
  split; [| split].
  - assert (Hn : (0 <= IZR (_S self + _D self + _I self))%R)
      by (apply IZR_le; lia).
    assert (Hd : (0 <= IZR (_Nref self))%R) by (apply IZR_le; lia).
    apply Rmult_le_pos; [exact Hn | left; apply Rinv_0_lt_compat; lra].
  - pose proof (f_score_range (IZR (_TP self) / (IZR (_Nsys self) + eps))
                  (IZR (_TP self) / (IZR (_Nref self) + eps))
                  (ratio_range (_TP self) (_Nsys self) ltac:(lia))
                  (ratio_range (_TP self) (_Nref self) ltac:(lia)))
      as HF.
    unfold f_score in HF. lra.
  - pose proof (f_score_range (IZR (_DE_TP self) / (IZR (_Nsys self) + eps))
                  (IZR (_DE_TP self) / (IZR (_Nref self) + eps))
                  (ratio_range (_DE_TP self) (_Nsys self) ltac:(lia))
                  (ratio_range (_DE_TP self) (_Nref self) ltac:(lia)))
      as HF.
    unfold f_score in HF. lra.
Qed.

(** The accumulator [acc_mixed] is what a block with one true positive,
    one false negative and one false positive leaves behind. *)
Lemma mixed_block_run :
  update_seld_scores_xyz (init 20 3) pred_mixed gt_two_classes
  = (acc_mixed, Ok tt).
Proof.
  unfold update_seld_scores_xyz, update_with.
  change (size gt_two_classes) with 1%nat.
  cbn [seq for_each]. unfold bind at 1.
  unfold block_step, class_loop, bind, attr.
  cbn [_nb_classes init seq for_each]. unfold bind.
  set (gt_b := ({[ 0%nat := [track_x]; 1%nat := [track_x] ]}
                : gmap nat (list (track xyz)))).
  set (pred_b := ({[ 0%nat := [track_x]; 2%nat := [track_x] ]}
                  : gmap nat (list (track xyz)))).
  rewrite (class_step_matched (fun c => c) dist_xyz pred_mixed gt_two_classes
             0 0 0 0 (init 20 3) gt_b pred_b [track_x] [track_x]
             (0 + dist_xyz (1, 0, 0) (1, 0, 0))%R (0 + 1)
             eq_refl eq_refl eq_refl eq_refl eq_refl ltac:(lia)).
  cbn [dist_xyz]. rewrite cartesian_same.
  replace ((0 + 0) / IZR (0 + 1))%R with 0%R
    by (change (0 + 1) with 1; lra).
  rewrite Rleb_true by (cbn [_spatial_T init]; lra).
  rewrite (class_step_cases (fun c => c) dist_xyz pred_mixed gt_two_classes
             0 1 _ _ _ gt_b pred_b eq_refl eq_refl).
  change (gt_b !! 1%nat) with (Some [track_x]).
  change (pred_b !! 1%nat) with (@None (list (track xyz))).
  cbn iota.
  rewrite (class_step_cases (fun c => c) dist_xyz pred_mixed gt_two_classes
             0 2 _ _ _ gt_b pred_b eq_refl eq_refl).
  change (gt_b !! 2%nat) with (@None (list (track xyz))).
  change (pred_b !! 2%nat) with (Some [track_x]).
  cbv beta iota zeta delta [ret modify].
  f_equal. apply SELDMetrics_ext; try reflexivity.
  cbn [_total_DE add_TP add_FP add_FN add_S add_D add_I add_DE_TP add_total_DE
       add_Nsys add_Nref init acc_mixed]. lra.
Qed.

Lemma scores_in_range_witness :
  consistent acc_mixed /\
  let '(ER, F, _, DE_F) := compute_seld_scores acc_mixed in
  (0 <= ER /\ 0 <= F <= 1 /\ 0 <= DE_F <= 1)%R.
Proof.
  assert (H : consistent acc_mixed)
    by (unfold consistent, acc_mixed; cbn; lia).
  split; [exact H | apply (scores_in_range acc_mixed H)].
Defined.

(** X11. When the total error is that of [_DE_TP] means of at most 180
    degrees, the reported localization error lies between 0 and 180: the
    sentinel returned without localized classes is also its maximum. *)
Theorem localization_error_in_range (self : SELDMetrics) :
  localized 180 self ->
  let '(_, _, DE, _) := compute_seld_scores self in
  (0 <= DE <= 180)%R.
Proof.
  intros [Hd [H0 H1]]. unfold compute_seld_scores.
  pose proof eps_pos as He.
  destruct (Z.eqb_spec (_DE_TP self) 0) as [E | NE]; cbn [negb]; [lra |].
  assert (Hpos : (1 <= IZR (_DE_TP self))%R) by (apply IZR_le; lia).
  assert (Hden : (0 < IZR (_DE_TP self) + eps)%R) by lra.
  split.
  - apply Rmult_le_pos; [exact H0 | left; apply Rinv_0_lt_compat, Hden].
  - apply (Rmult_le_reg_r (IZR (_DE_TP self) + eps)); [exact Hden |].
    replace (_total_DE self / (IZR (_DE_TP self) + eps)
             * (IZR (_DE_TP self) + eps))%R
      with (_total_DE self) by (field; lra).
    nra.
Qed.

Lemma localization_error_in_range_witness :
  localized 180 acc_polar_far /\
  let '(_, _, DE, _) := compute_seld_scores acc_polar_far in
  (0 <= DE <= 180)%R.
Proof.
  assert (H : localized 180 acc_polar_far).
  { unfold localized, acc_polar_far;
      cbn [_DE_TP _total_DE]. split; [lia | lra]. }
  split; [exact H | apply (localization_error_in_range acc_polar_far H)].
Defined.

(** [acc_polar_far] is what the polar run on the two opposite directions
    leaves behind at threshold 90. *)
Lemma polar_far_run :
  update_seld_scores (init 90 1) (one_class track_azi180) (one_class track_azi0)
  = (acc_polar_far, Ok tt).
Proof.
  unfold update_seld_scores.
  rewrite (update_one_class _ _ track_azi0 track_azi180 90
             (0 + dist_azi_ele (deg2rad (0, 0)) (deg2rad (180, 0)))%R (0 + 1)
             eq_refl ltac:(lia)).
  replace (dist_azi_ele (deg2rad (0, 0)%R) (deg2rad (180, 0)%R)) with 180%R
    by (symmetry; apply spherical_antipodal).
  replace ((0 + 180) / IZR (0 + 1))%R with 180%R
    by (change (0 + 1) with 1; lra).
  rewrite Rleb_false by lra.
  f_equal. apply SELDMetrics_ext; try reflexivity.
  cbn [_total_DE add_D add_FN add_DE_TP add_total_DE add_Nsys add_Nref init
       acc_polar_far]. lra.
Qed.

(** ** Accounting over a whole call *)

Lemma for_each_measure {X A : Type} (m : SELDMetrics -> Z)
    (f : X -> Z) (total : list X -> Z) (Inv : SELDMetrics -> Prop)
    (body : X -> A -> M A) :
  total [] = 0 ->
  (forall x xs, total (x :: xs) = f x + total xs) ->
  (forall x a s s1 a1,
      Inv s -> body x a s = (s1, Ok a1) -> m s1 = m s + f x /\ Inv s1) ->
  forall xs a s s' a',
    Inv s -> for_each body xs a s = (s', Ok a') ->
    m s' = m s + total xs /\ Inv s'.
Proof.
  intros Hnil Hcons Hbody.
  induction xs as [| x xs IH]; intros a s s' a' HI H; cbn [for_each] in H.
  - inversion H; subst. rewrite Hnil. split; [lia | exact HI].
  - unfold bind in H.
    destruct (body x a s) as [s1 [a1 | e]] eqn:E; [| discriminate].
    destruct (Hbody _ _ _ _ _ HI E) as [Hm HI1].
    destruct (IH _ _ _ _ HI1 H) as [Hm' HI'].
    rewrite Hcons. split; [lia | exact HI'].
Qed.

Section Accounting.

Context {Coord : Type}.
Variable scale : Coord -> Coord.
Variable dist : Coord -> Coord -> R.

(** What one returning class step does to the counters that only depend
    on the two memberships. *)
Lemma class_step_returns (pred gt : annotations Coord) block_cnt class_cnt
    loc s s' loc' :
  class_step scale dist pred gt block_cnt class_cnt loc s = (s', Ok loc') ->
  exists gt_b pred_b,
    gt !! block_cnt = Some gt_b /\ pred !! block_cnt = Some pred_b /\
    _Nref s' = _Nref s + unit_if (contains class_cnt gt_b) /\
    _Nsys s' = _Nsys s + unit_if (contains class_cnt pred_b) /\
    _TP s' + _FP s' + _TN s' + _FN s' = _TP s + _FP s + _TN s + _FN s + 1 /\
    _TP s' + _FN s' - _Nref s' = _TP s + _FN s - _Nref s /\
    _S s' = _S s /\ _D s' = _D s /\ _I s' = _I s /\
    _nb_classes s' = _nb_classes s.
Proof.
  intros H. destruct loc as [loc_FN loc_FP].
  destruct (gt !! block_cnt) as [gt_b |] eqn:Hg;
    [| rewrite class_step_no_gt in H by exact Hg; discriminate].
  destruct (pred !! block_cnt) as [pred_b |] eqn:Hp;
    [| rewrite (class_step_no_pred _ _ _ _ _ _ _ _ _ Hg Hp) in H; discriminate].
  rewrite (class_step_cases _ _ _ _ _ _ _ _ _ _ _ Hg Hp) in H.
  exists gt_b, pred_b. split; [reflexivity |]. split; [reflexivity |].
  unfold contains.
  destruct (gt_b !! class_cnt) as [gt_tracks |],
           (pred_b !! class_cnt) as [pred_tracks |].
  - destruct (matched_distance scale dist gt_tracks pred_tracks)
      as [[total n] | e]; [| discriminate].
    unfold score_both in H.
    destruct (Reqb total 0 && Z.eqb n 0);
      [| cbn zeta in H; destruct (Rleb _ _)];
      inversion H; subst; simpl; lia.
  - inversion H; subst; simpl; lia.
  - inversion H; subst; simpl; lia.
  - inversion H; subst; simpl; lia.
Qed.

Lemma class_loop_returns (pred gt : annotations Coord) block_cnt s s1 loc :
  class_loop scale dist pred gt block_cnt s = (s1, Ok loc) ->
  _Nref s1 = _Nref s
             + match gt !! block_cnt with
               | Some gt_b => count_present gt_b (seq 0 (_nb_classes s))
               | None => 0
               end /\
  _Nsys s1 = _Nsys s
             + match pred !! block_cnt with
               | Some pred_b => count_present pred_b (seq 0 (_nb_classes s))
               | None => 0
               end /\
  _TP s1 + _FP s1 + _TN s1 + _FN s1
  = _TP s + _FP s + _TN s + _FN s + Z.of_nat (_nb_classes s) /\
  _TP s1 + _FN s1 - _Nref s1 = _TP s + _FN s - _Nref s /\
  _nb_classes s1 = _nb_classes s.
Proof.
  unfold class_loop, bind, attr. intros H.
  destruct (_nb_classes s) as [| k] eqn:Hn.
  { cbn in H. inversion H; subst. rewrite Hn.
    destruct (gt !! block_cnt), (pred !! block_cnt); cbn; repeat split; lia. }
  rewrite <- Hn in *.
  destruct (gt !! block_cnt) as [gt_b |] eqn:Hg.
  2:{ rewrite Hn in H. cbn [seq for_each] in H. unfold bind in H.
      rewrite class_step_no_gt in H by exact Hg. discriminate. }
  destruct (pred !! block_cnt) as [pred_b |] eqn:Hp.
  2:{ rewrite Hn in H. cbn [seq for_each] in H. unfold bind in H.
      rewrite (class_step_no_pred _ _ _ _ _ _ _ _ _ Hg Hp) in H. discriminate. }
  assert (Hstep : forall c a s2 s3 a3,
             True ->
             class_step scale dist pred gt block_cnt c a s2 = (s3, Ok a3) ->
             _Nref s3 = _Nref s2 + unit_if (contains c gt_b) /\
             _Nsys s3 = _Nsys s2 + unit_if (contains c pred_b) /\
             _TP s3 + _FP s3 + _TN s3 + _FN s3
             = _TP s2 + _FP s2 + _TN s2 + _FN s2 + 1 /\
             _TP s3 + _FN s3 - _Nref s3 = _TP s2 + _FN s2 - _Nref s2 /\
             _nb_classes s3 = _nb_classes s2).
  { intros c a s2 s3 a3 _ E.
    destruct (class_step_returns _ _ _ _ _ _ _ _ E)
      as (gb & pb & Hg' & Hp' & H1 & H2 & H3 & H4 & _ & _ & _ & H5).
    rewrite Hg in Hg'. rewrite Hp in Hp'.
    inversion Hg'; inversion Hp'; subst gb pb.
    repeat split; assumption. }
  destruct (for_each_measure _Nref (fun c => unit_if (contains c gt_b))
              (count_present gt_b) (fun _ => True) _
              eq_refl (fun _ _ => eq_refl)
              (fun c a s2 s3 a3 I E =>
                 conj (proj1 (Hstep c a s2 s3 a3 I E)) I)
              _ _ _ _ _ I H) as [E1 _].
  destruct (for_each_measure _Nsys (fun c => unit_if (contains c pred_b))
              (count_present pred_b) (fun _ => True) _
              eq_refl (fun _ _ => eq_refl)
              (fun c a s2 s3 a3 I E =>
                 conj (proj1 (proj2 (Hstep c a s2 s3 a3 I E))) I)
              _ _ _ _ _ I H) as [E2 _].
  destruct (for_each_measure (fun s => _TP s + _FP s + _TN s + _FN s)
              (fun _ => 1) (fun cs => Z.of_nat (length cs)) (fun _ => True) _
              eq_refl (fun _ cs => ltac:(cbn [length]; lia))
              (fun c a s2 s3 a3 I E =>
                 conj (proj1 (proj2 (proj2 (Hstep c a s2 s3 a3 I E)))) I)
              _ _ _ _ _ I H) as [E3 _].
  rewrite length_seq in E3.
  pose proof (for_each_returns
                (fun _ s2 => _TP s2 + _FN s2 - _Nref s2 = _TP s + _FN s - _Nref s
                             /\ _nb_classes s2 = _nb_classes s)
                (class_step scale dist pred gt block_cnt)
                (fun c a s2 a3 s3 HQ E =>
                   let H' := Hstep c a s2 s3 a3 I E in
                   conj (eq_trans (proj1 (proj2 (proj2 (proj2 H')))) (proj1 HQ))
                        (eq_trans (proj2 (proj2 (proj2 (proj2 H')))) (proj2 HQ)))
                _ _ _ _ _ (conj eq_refl eq_refl) H) as [E4 E5].
  repeat split; assumption.
Qed.

Lemma block_step_accounts (pred gt : annotations Coord) block_cnt s s' :
  block_step scale dist pred gt block_cnt s = (s', Ok tt) ->
  _Nref s' = _Nref s
             + match gt !! block_cnt with
               | Some gt_b => count_present gt_b (seq 0 (_nb_classes s))
               | None => 0
               end /\
  _Nsys s' = _Nsys s
             + match pred !! block_cnt with
               | Some pred_b => count_present pred_b (seq 0 (_nb_classes s))
               | None => 0
               end /\
  _TP s' + _FP s' + _TN s' + _FN s'
  = _TP s + _FP s + _TN s + _FN s + Z.of_nat (_nb_classes s) /\
  _TP s' + _FN s' - _Nref s' = _TP s + _FN s - _Nref s /\
  _S s' + _D s' - _FN s' = _S s + _D s - _FN s /\
  _S s' + _I s' - _FP s' = _S s + _I s - _FP s /\
  _nb_classes s' = _nb_classes s.
Proof.
  intros H.
  destruct (block_step_returns _ _ _ _ _ _ _ H) as (s1 & fn & fp & Hloop & ->).
  pose proof (class_loop_loc_tracks _ _ _ _ _ _ _ _ Hloop) as HQ.
  destruct (class_loop_returns _ _ _ _ _ _ Hloop) as (E1 & E2 & E3 & E4 & E5).
  unfold loc_tracks in HQ; simpl in HQ. simpl.
  repeat split; try assumption; lia.
Qed.

End Accounting.

Lemma update_with_accounts {Coord : Type}
    (scale : Coord -> Coord) (dist : Coord -> Coord -> R)
    (pred gt : annotations Coord) (s s' : SELDMetrics) :
  update_with scale dist pred gt s = (s', Ok tt) ->
  _Nref s' = _Nref s + memberships gt (size gt) (_nb_classes s) /\
  _Nsys s' = _Nsys s + memberships pred (size gt) (_nb_classes s) /\
  _TP s' + _FP s' + _TN s' + _FN s'
  = _TP s + _FP s + _TN s + _FN s
    + Z.of_nat (size gt) * Z.of_nat (_nb_classes s) /\
  _TP s' + _FN s' - _Nref s' = _TP s + _FN s - _Nref s /\
  _S s' + _D s' - _FN s' = _S s + _D s - _FN s /\
  _S s' + _I s' - _FP s' = _S s + _I s - _FP s.
Proof.
  unfold update_with, memberships. intros H.
  set (n := _nb_classes s).
  set (body := fun (block_cnt : nat) (_ : unit) =>
                 block_step scale dist pred gt block_cnt) in *.
  assert (Hblock : forall b a s2 s3 a3,
             _nb_classes s2 = n -> body b a s2 = (s3, Ok a3) ->
             _Nref s3 = _Nref s2
                        + match gt !! b with
                          | Some gt_b => count_present gt_b (seq 0 n)
                          | None => 0
                          end /\
             _Nsys s3 = _Nsys s2
                        + match pred !! b with
                          | Some pred_b => count_present pred_b (seq 0 n)
                          | None => 0
                          end /\
             _TP s3 + _FP s3 + _TN s3 + _FN s3
             = _TP s2 + _FP s2 + _TN s2 + _FN s2 + Z.of_nat n /\
             _TP s3 + _FN s3 - _Nref s3 = _TP s2 + _FN s2 - _Nref s2 /\
             _S s3 + _D s3 - _FN s3 = _S s2 + _D s2 - _FN s2 /\
             _S s3 + _I s3 - _FP s3 = _S s2 + _I s2 - _FP s2 /\
             _nb_classes s3 = n).
  { intros b [] s2 s3 [] HI E. unfold body in E.
    destruct (block_step_accounts _ _ _ _ _ _ _ E)
      as (A1 & A2 & A3 & A4 & A5 & A6 & A7).
    rewrite HI in *. repeat split; assumption. }
  assert (HI : _nb_classes s = n) by reflexivity.
  destruct (for_each_measure _Nref
              (fun b => match gt !! b with
                        | Some gt_b => count_present gt_b (seq 0 n)
                        | None => 0
                        end)
              (memberships_in gt n) (fun s2 => _nb_classes s2 = n) body
              eq_refl (fun _ _ => eq_refl)
              (fun b a s2 s3 a3 I2 E =>
                 let A := Hblock b a s2 s3 a3 I2 E in
                 conj (proj1 A)
                      (proj2 (proj2 (proj2 (proj2 (proj2 (proj2 A)))))))
              _ _ _ _ _ HI H) as [E1 _].
  destruct (for_each_measure _Nsys
              (fun b => match pred !! b with
                        | Some pred_b => count_present pred_b (seq 0 n)
                        | None => 0
                        end)
              (memberships_in pred n) (fun s2 => _nb_classes s2 = n) body
              eq_refl (fun _ _ => eq_refl)
              (fun b a s2 s3 a3 I2 E =>
                 let A := Hblock b a s2 s3 a3 I2 E in
                 conj (proj1 (proj2 A))
                      (proj2 (proj2 (proj2 (proj2 (proj2 (proj2 A)))))))
              _ _ _ _ _ HI H) as [E2 _].
  destruct (for_each_measure (fun s2 => _TP s2 + _FP s2 + _TN s2 + _FN s2)
              (fun _ => Z.of_nat n)
              (fun bs => Z.of_nat (length bs) * Z.of_nat n)
              (fun s2 => _nb_classes s2 = n) body
              eq_refl (fun _ bs => ltac:(cbn [length]; lia))
              (fun b a s2 s3 a3 I2 E =>
                 let A := Hblock b a s2 s3 a3 I2 E in
                 conj (proj1 (proj2 (proj2 A)))
                      (proj2 (proj2 (proj2 (proj2 (proj2 (proj2 A)))))))
              _ _ _ _ _ HI H) as [E3 _].
  rewrite length_seq in E3.
  assert (Hcons : forall b a s2 a3 s3,
             (_nb_classes s2 = n /\
              _TP s2 + _FN s2 - _Nref s2 = _TP s + _FN s - _Nref s /\
              _S s2 + _D s2 - _FN s2 = _S s + _D s - _FN s /\
              _S s2 + _I s2 - _FP s2 = _S s + _I s - _FP s) ->
             body b a s2 = (s3, Ok a3) ->
             (_nb_classes s3 = n /\
              _TP s3 + _FN s3 - _Nref s3 = _TP s + _FN s - _Nref s /\
              _S s3 + _D s3 - _FN s3 = _S s + _D s - _FN s /\
              _S s3 + _I s3 - _FP s3 = _S s + _I s - _FP s)).
  { intros b a s2 a3 s3 (Q0 & Q1 & Q2 & Q3) E.
    destruct (Hblock b a s2 s3 a3 Q0 E) as (_ & _ & _ & A4 & A5 & A6 & A7).
    repeat split; [exact A7 | lia | lia | lia]. }
  destruct (for_each_returns _ body Hcons _ _ _ _ _
              (conj HI (conj eq_refl (conj eq_refl eq_refl))) H)
    as (_ & E4 & E5 & E6).
  repeat split; assumption.
Qed.

(** X12. When an ingestion call returns, [_Nref] has grown by the number
    of (block, class) pairs of the ground truth with block below the number
    of ground-truth blocks and class below [_nb_classes], and [_Nsys] by the
    number of such pairs of the predictions. *)
Theorem ingestion_counts_memberships {Coord : Type}
    (scale : Coord -> Coord) (dist : Coord -> Coord -> R)
    (pred gt : annotations Coord) (s s' : SELDMetrics) :
  update_with scale dist pred gt s = (s', Ok tt) ->
  _Nref s' = _Nref s + memberships gt (size gt) (_nb_classes s) /\
  _Nsys s' = _Nsys s + memberships pred (size gt) (_nb_classes s).
Proof.
  intros H.
  destruct (update_with_accounts _ _ _ _ _ _ H) as (E1 & E2 & _).
  split; assumption.
Qed.

Lemma ingestion_counts_memberships_witness :
  _Nref (fst (update_seld_scores_xyz (init 20 3) pred_other_class gt_two_classes))
  = 0 + memberships gt_two_classes (size gt_two_classes) 3 /\
  _Nsys (fst (update_seld_scores_xyz (init 20 3) pred_other_class gt_two_classes))
  = 0 + memberships pred_other_class (size gt_two_classes) 3.
Proof.
  apply (ingestion_counts_memberships (fun c => c) dist_xyz
           pred_other_class gt_two_classes (init 20 3)).
  unfold update_seld_scores_xyz.
  vm_compute. reflexivity.
Defined.

(** X13. When an ingestion call returns, the four detection counters
    together have grown by (number of ground-truth blocks) x
    [_nb_classes], and [_TP + _FN] has grown exactly as much as [_Nref]. *)
Theorem ingestion_detection_accounting {Coord : Type}
    (scale : Coord -> Coord) (dist : Coord -> Coord -> R)
    (pred gt : annotations Coord) (s s' : SELDMetrics) :
  update_with scale dist pred gt s = (s', Ok tt) ->
  _TP s' + _FP s' + _TN s' + _FN s'
  = _TP s + _FP s + _TN s + _FN s
    + Z.of_nat (size gt) * Z.of_nat (_nb_classes s) /\
  (_TP s' - _TP s) + (_FN s' - _FN s) = _Nref s' - _Nref s.
Proof.
  intros H.
  destruct (update_with_accounts _ _ _ _ _ _ H) as (_ & _ & E3 & E4 & _).
  split; [exact E3 | lia].
Qed.

Lemma ingestion_detection_accounting_witness :
  exists s',
    update_seld_scores_xyz (init 20 3) pred_other_class gt_two_classes
    = (s', Ok tt) /\
    _TP s' + _FP s' + _TN s' + _FN s' = 3.
Proof.
  eexists. split; [vm_compute; reflexivity |].
  refine (proj1 (ingestion_detection_accounting (fun c => c) dist_xyz
                   pred_other_class gt_two_classes (init 20 3) _ _)).
  vm_compute. reflexivity.
Defined.

(** X14. When an ingestion call returns, over the whole call [_S + _D]
    has grown exactly as much as [_FN] and [_S + _I] exactly as much as
    [_FP]. *)
Theorem ingestion_error_rate_accounting {Coord : Type}
    (scale : Coord -> Coord) (dist : Coord -> Coord -> R)
    (pred gt : annotations Coord) (s s' : SELDMetrics) :
  update_with scale dist pred gt s = (s', Ok tt) ->
  (_S s' - _S s) + (_D s' - _D s) = _FN s' - _FN s /\
  (_S s' - _S s) + (_I s' - _I s) = _FP s' - _FP s.
Proof.
  intros H.
  destruct (update_with_accounts _ _ _ _ _ _ H) as (_ & _ & _ & _ & E5 & E6).
  split; lia.
Qed.

Lemma ingestion_error_rate_accounting_witness :
  exists s',
    update_seld_scores_xyz (init 20 3) pred_other_class gt_two_classes
    = (s', Ok tt) /\
    (_S s' - 0) + (_D s' - 0) = _FN s' - 0.
Proof.
  eexists. split; [vm_compute; reflexivity |].
  refine (proj1 (ingestion_error_rate_accounting (fun c => c) dist_xyz
                   pred_other_class gt_two_classes (init 20 3) _ _)).
  vm_compute. reflexivity.
Defined.

(** ** Edge cases of a call *)

Lemma add_zero_counters s : add_I 0 (add_D 0 (add_S 0 s)) = s.
Proof.
  destruct s. unfold add_I, add_D, add_S. cbn.
  rewrite !Z.add_0_r. reflexivity.
Qed.

Lemma block_step_no_classes {Coord : Type}
    (scale : Coord -> Coord) (dist : Coord -> Coord -> R)
    (pred gt : annotations Coord) (block_cnt : nat) (s : SELDMetrics) :
  _nb_classes s = 0%nat ->
  block_step scale dist pred gt block_cnt s = (s, Ok tt).
Proof.
  intros Hn. unfold block_step, class_loop, bind, attr, modify.
  rewrite Hn. cbn [seq for_each ret].
  change (Z.min 0 0) with 0. change (Z.max 0 (0 - 0)) with 0.
  rewrite add_zero_counters. reflexivity.
Qed.

Lemma for_each_skip {X : Type} (body : X -> unit -> M unit) (s : SELDMetrics) :
  forall xs, (forall x, In x xs -> body x tt s = (s, Ok tt)) ->
             for_each body xs tt s = (s, Ok tt).
Proof.
  induction xs as [| x xs IH]; intros H; cbn [for_each]; [reflexivity |].
  unfold bind. rewrite (H x (or_introl eq_refl)).
  apply IH. intros y Hy. apply H. right. exact Hy.
Qed.

(** X15. A call on an accumulator configured with zero classes, or with
    an empty ground-truth dictionary, returns normally and leaves the
    accumulator exactly as it was, whatever the two dictionaries hold (the
    predictions are not even looked up). *)
Theorem ingestion_without_work {Coord : Type}
    (scale : Coord -> Coord) (dist : Coord -> Coord -> R)
    (pred gt : annotations Coord) (s : SELDMetrics) :
  _nb_classes s = 0%nat \/ gt = ∅ ->
  update_with scale dist pred gt s = (s, Ok tt).
Proof.
  intros [Hn | ->]; unfold update_with.
  - apply for_each_skip. intros b _. apply block_step_no_classes, Hn.
  - rewrite map_size_empty. reflexivity.
Qed.

Lemma ingestion_without_work_witness :
  update_seld_scores_xyz (init 20 0) ∅ (one_class track_x)
  = (init 20 0, Ok tt).
Proof.
  apply (ingestion_without_work (fun c => c) dist_xyz ∅ (one_class track_x)).
  left. reflexivity.
Defined.

(** X16. With at least one class configured, a ground-truth dictionary
    that lacks one of the keys 0 .. B-1 (B its number of keys) makes the
    call raise. *)
Theorem ingestion_needs_contiguous_blocks {Coord : Type}
    (scale : Coord -> Coord) (dist : Coord -> Coord -> R)
    (pred gt : annotations Coord) (s : SELDMetrics) (b : nat) :
  (0 < _nb_classes s)%nat ->
  (b < size gt)%nat ->
  gt !! b = None ->
  exists e, snd (update_with scale dist pred gt s) = Raise e.
Proof.
  intros Hn Hb Hg. unfold update_with.
  apply (for_each_raises (fun s => (0 < _nb_classes s)%nat) _ b).
  - intros y a s0 Hs0.
    destruct (block_step_same_config scale dist pred gt y s0) as [_ Hc].
    rewrite Hc. exact Hs0.
  - intros a s0 Hs0. unfold block_step, class_loop, bind, attr.
    destruct (_nb_classes s0) as [| k]; [lia |].
    cbn [seq for_each fst snd]. unfold bind.
    rewrite class_step_no_gt by exact Hg. eexists; reflexivity.
  - apply in_seq. lia.
  - exact Hn.
Qed.

Lemma ingestion_needs_contiguous_blocks_witness :
  exists e,
    snd (update_seld_scores_xyz (init 20 11)
           {[ 1%nat := ∅ ]} {[ 1%nat := ∅ ]}) = Raise e.
Proof.
  refine (ingestion_needs_contiguous_blocks (fun c => c) dist_xyz
            {[ 1%nat := ∅ ]} {[ 1%nat := ∅ ]} (init 20 11) 0 _ _ _).
  - cbn. lia.
  - vm_compute. lia.
  - reflexivity.
Defined.

(** X17. Neither ingestion variant ever changes the spatial threshold or
    the number of classes, whether the call returns or raises. *)
Theorem ingestion_keeps_configuration (self : SELDMetrics)
    (pred gt : annotations xyz) (pred_deg gt_deg : annotations azi_ele) :
  same_config self (fst (update_seld_scores_xyz self pred gt))
  /\ same_config self (fst (update_seld_scores self pred_deg gt_deg)).
Proof. split; apply update_with_same_config. Qed.

(** ** Scores of a fresh accumulator, early stopping *)

(** X18. Whatever the other counters are: without substitutions,
    deletions and insertions the error rate is exactly 0; without true
    positives the F-score is exactly 0; and without localized classes the
    localization error is the sentinel 180 and the localization F-score is
    exactly 0.  In particular a fresh accumulator scores (0, 0, 180, 0). *)
Theorem scores_without_hits (self : SELDMetrics) :
  let '(ER, F, DE, DE_F) := compute_seld_scores self in
  (_S self + _D self + _I self = 0 -> ER = 0%R)
  /\ (_TP self = 0 -> F = 0%R)
  /\ (_DE_TP self = 0 -> DE = 180%R /\ DE_F = 0%R)
  /\ forall doa_threshold nb_classes,
       compute_seld_scores (init doa_threshold nb_classes)
       = (0, 0, 180, 0)%R.
Proof.
  unfold compute_seld_scores.
  assert (Hz : forall x y : R, (2 * (0 / x) * (0 / y)
                                / (0 / x + 0 / y + eps) = 0)%R)
    by (intros; unfold Rdiv; rewrite !Rmult_0_l, !Rmult_0_r, Rmult_0_l;
        reflexivity).
  split; [| split; [| split]].
  - intros ->. unfold Rdiv. apply Rmult_0_l.
  - intros ->. apply Hz.
  - intros ->. cbn [Z.eqb negb]. split; [reflexivity | apply Hz].
  - intros T n. unfold init.
    cbn [_TP _S _D _I _Nref _Nsys _total_DE _DE_TP Z.eqb negb].
    change (0 + 0 + 0) with 0. rewrite Hz.
    replace (0 / (0 + eps))%R with 0%R by (unfold Rdiv; lra).
    reflexivity.
Qed.

(** X19. When the error rate, the F-score and the frame recall lie in
    [0, 1] and the DOA error in [0, 180], the early stopping metric lies
    in [0, 1]. *)
Theorem early_stopping_metric_range (er F de fr : R) :
  (0 <= er <= 1)%R -> (0 <= F <= 1)%R ->
  (0 <= de <= 180)%R -> (0 <= fr <= 1)%R ->
  exists v, early_stopping_metric [er; F] [de; fr] = Some v
            /\ (0 <= v <= 1)%R.
Proof.
  intros Her HF Hde Hfr. eexists. split; [reflexivity |].
  unfold np_mean. cbn [fold_right length INR].
  replace (1 + 1 + 1 + 1)%R with 4%R by lra.
  lra.
Qed.

Lemma early_stopping_metric_range_witness :
  exists v, early_stopping_metric [0.5; 0.8]%R [40; 0.6]%R = Some v
            /\ (0 <= v <= 1)%R.
Proof. apply early_stopping_metric_range; lra. Defined.

(** X20. The early stopping metric fails (an index error in Python)
    exactly when one of its two arguments has fewer than two entries;
    entries beyond the second are ignored. *)
Theorem early_stopping_metric_needs_pairs (sed_error doa_error : list R) :
  (early_stopping_metric sed_error doa_error = None
   <-> (length sed_error < 2)%nat \/ (length doa_error < 2)%nat)
  /\ forall s0 s1 d0 d1 more_s more_d,
       early_stopping_metric (s0 :: s1 :: more_s) (d0 :: d1 :: more_d)
       = early_stopping_metric [s0; s1] [d0; d1].
Proof.
  split; [| reflexivity].
  destruct sed_error as [| s0 [| s1 ?]], doa_error as [| d0 [| d1 ?]];
    cbn; split; intros H; try reflexivity; try discriminate;
    try (left; lia); try (right; lia);
    destruct H; lia.
Qed.

(** X21. The early stopping metric never gets worse when any component
    gets better: it is non-decreasing in the error rate and the DOA error
    and non-increasing in the F-score and the frame recall. *)
Theorem early_stopping_metric_monotone (er F de fr er' F' de' fr' : R) :
  (er <= er')%R -> (F' <= F)%R -> (de <= de')%R -> (fr' <= fr)%R ->
  exists v v',
    early_stopping_metric [er; F] [de; fr] = Some v /\
    early_stopping_metric [er'; F'] [de'; fr'] = Some v' /\
    (v <= v')%R.
Proof.
  intros H1 H2 H3 H4. eexists _, _. split; [reflexivity |].
  split; [reflexivity |].
  unfold np_mean. cbn [fold_right length INR].
  replace (1 + 1 + 1 + 1)%R with 4%R by lra.
  lra.
Qed.

Lemma early_stopping_metric_monotone_witness :
  exists v v',
    early_stopping_metric [0.5; 0.8]%R [40; 0.6]%R = Some v /\
    early_stopping_metric [0.6; 0.7]%R [50; 0.5]%R = Some v' /\
    (v <= v')%R.
Proof. apply early_stopping_metric_monotone; lra. Defined.

(** ** Frame matching *)

Lemma index_of_lookup v l i :
  index_of v l = Some i ->
  nth_error l i = Some v /\ forall j, (j < i)%nat -> nth_error l j <> Some v.
Proof.
  revert i. induction l as [| w l IH]; intros i H; cbn [index_of] in H;
    [discriminate |].
  destruct (Nat.eqb_spec w v) as [-> | Hne].
  - inversion H; subst. split; [reflexivity | intros j Hj; lia].
  - destruct (index_of v l) as [k |]; [| discriminate].
    cbn in H. inversion H; subst.
    destruct (IH k eq_refl) as [Hk Hfirst].
    split; [exact Hk |].
    intros [| j] Hj; cbn; [congruence | apply Hfirst; lia].
Qed.

Lemma index_of_absent v l : index_of v l = None <-> ~ In v l.
Proof.
  induction l as [| w l IH]; cbn [index_of In]; [tauto |].
  destruct (Nat.eqb_spec w v) as [-> | Hne].
  - split; [discriminate | tauto].
  - destruct (index_of v l) as [k |]; cbn.
    + split; [discriminate |]. intros Hn. exfalso. apply Hn. right.
      destruct IH as [_ IH]. destruct (in_dec Nat.eq_dec v l) as [Hin | Hnin];
        [exact Hin | specialize (IH Hnin); discriminate].
    + split; [| reflexivity]. intros _ [Heq | Hin]; [congruence |].
      destruct IH as [IH _]. exact (IH eq_refl Hin).
Qed.

Lemma index_of_in_range v l i : index_of v l = Some i -> (i < length l)%nat.
Proof.
  intros H. destruct (index_of_lookup _ _ _ H) as [Hk _].
  apply nth_error_Some. congruence.
Qed.

(** [index_of] returns the first position of the frame index, and
    nothing exactly when the index does not occur. *)
Lemma index_of_first_occurrence (v : nat) (l : list nat) :
  (forall i, index_of v l = Some i ->
             nth_error l i = Some v /\
             forall j, (j < i)%nat -> nth_error l j <> Some v)
  /\ (index_of v l = None <-> ~ In v l).
Proof.
  split; [intros i; apply index_of_lookup | apply index_of_absent].
Qed.

Section FrameLoop.

Context {Coord : Type}.
Variable scale : Coord -> Coord.
Variable dist : Coord -> Coord -> R.


Lemma match_frames_in_range gt_list pred_list pred_ind_list gt_ind_list :
  (length pred_ind_list <= length pred_list)%nat ->
  forall gt_ind total n,
    (gt_ind + length gt_ind_list <= length gt_list)%nat ->
    exists r,
      match_frames dist gt_list pred_list pred_ind_list gt_ind gt_ind_list
        total n = Ok r.
Proof.
  intros Hp.
  induction gt_ind_list as [| gt_val rest IH]; intros gt_ind total n Hg;
    cbn [match_frames]; [eexists; reflexivity |].
  cbn [length] in Hg.
  destruct (index_of gt_val pred_ind_list) as [pred_ind |] eqn:Hi.
  - unfold item.
    destruct (nth_error gt_list gt_ind) as [g |] eqn:Eg.
    2:{ apply nth_error_None in Eg. lia. }
    destruct (nth_error pred_list pred_ind) as [p |] eqn:Ep.
    2:{ apply nth_error_None in Ep. apply index_of_in_range in Hi. lia. }
    apply IH. lia.
  - apply IH. lia.
Qed.

Lemma matched_distance_well_formed gt_tracks pred_tracks :
  well_formed_tracks gt_tracks -> well_formed_tracks pred_tracks ->
  exists r, matched_distance scale dist gt_tracks pred_tracks = Ok r.
Proof.
  intros (tg & rg & -> & Hg0 & Hg) (tp & rp & -> & Hp0 & Hp).
  unfold matched_distance, locations, frame_indices, first, squeeze.
  destruct tg as [gi gc], tp as [pi pc]; cbn [fst snd] in *.
  destruct gc as [| g0 gc]; [contradiction |].
  destruct pc as [| p0 pc]; [contradiction |].
  apply match_frames_in_range; rewrite length_map; cbn [length] in *; lia.
Qed.

Lemma class_step_well_formed (pred gt : annotations Coord) block_cnt class_cnt
    loc s gt_b pred_b :
  gt !! block_cnt = Some gt_b ->
  pred !! block_cnt = Some pred_b ->
  (forall tracks, gt_b !! class_cnt = Some tracks -> well_formed_tracks tracks) ->
  (forall tracks, pred_b !! class_cnt = Some tracks -> well_formed_tracks tracks) ->
  exists s' loc',
    class_step scale dist pred gt block_cnt class_cnt loc s = (s', Ok loc').
Proof.
  intros Hg Hp Wg Wp. destruct loc as [loc_FN loc_FP].
  rewrite (class_step_cases _ _ _ _ _ _ _ _ _ _ _ Hg Hp).
  destruct (gt_b !! class_cnt) as [gt_tracks |],
           (pred_b !! class_cnt) as [pred_tracks |];
    try (eexists _, _; reflexivity).
  destruct (matched_distance_well_formed gt_tracks pred_tracks
              (Wg _ eq_refl) (Wp _ eq_refl)) as [[total n] ->].
  destruct (score_both_outcome total n loc_FN loc_FP (add_Nsys 1 (add_Nref 1 s)))
    as (s' & loc' & _ & E & _).
  eexists _, _. exact E.
Qed.

End FrameLoop.

Lemma for_each_all_return {X A : Type} (Inv : SELDMetrics -> Prop)
    (body : X -> A -> M A) (xs : list X) :
  (forall x a s, In x xs -> Inv s ->
                 exists s' a', body x a s = (s', Ok a') /\ Inv s') ->
  forall a s, Inv s ->
              exists s' a', for_each body xs a s = (s', Ok a') /\ Inv s'.
Proof.
  induction xs as [| x xs IH]; intros Hbody a s HI; cbn [for_each].
  - eexists _, _. split; [reflexivity | exact HI].
  - unfold bind.
    destruct (Hbody x a s (or_introl eq_refl) HI) as (s1 & a1 & E & HI1).
    rewrite E. apply IH; [| exact HI1].
    intros y b t Hy. apply Hbody. right. exact Hy.
Qed.

(** X23. If both dictionaries have an entry for every block index below
    the number of ground-truth blocks, and every class below [_nb_classes]
    present in such a block has a first track whose location list is not
    empty and at least as long as its frame-index list, the call returns
    normally. *)
Theorem ingestion_of_well_formed_input_returns {Coord : Type}
    (scale : Coord -> Coord) (dist : Coord -> Coord -> R)
    (pred gt : annotations Coord) (s : SELDMetrics) :
  well_formed (size gt) (_nb_classes s) gt ->
  well_formed (size gt) (_nb_classes s) pred ->
  exists s', update_with scale dist pred gt s = (s', Ok tt).
Proof.
  intros Wg Wp. unfold update_with.
  set (n := _nb_classes s) in *.
  destruct (for_each_all_return (fun s0 => _nb_classes s0 = n)
              (fun block_cnt (_ : unit) => block_step scale dist pred gt block_cnt)
              (seq 0 (size gt))) with (a := tt) (s := s)
    as (s' & [] & E & _); [| reflexivity | exists s'; exact E].
  intros b [] s0 Hb Hn. apply in_seq in Hb.
  destruct (Wg b ltac:(lia)) as (gt_b & Hg & Wgb).
  destruct (Wp b ltac:(lia)) as (pred_b & Hp & Wpb).
  unfold block_step, class_loop, bind, attr, modify. rewrite Hn.
  destruct (for_each_all_return (fun s1 => _nb_classes s1 = n)
              (class_step scale dist pred gt b) (seq 0 n))
    with (a := (0, 0)) (s := s0) as (s1 & [fn fp] & E & Hn1);
    [| exact Hn |].
  - intros c loc s1 Hc Hs1. apply in_seq in Hc.
    destruct (class_step_well_formed scale dist pred gt b c loc s1 gt_b pred_b
                Hg Hp (fun t Ht => Wgb c t ltac:(lia) Ht)
                (fun t Ht => Wpb c t ltac:(lia) Ht)) as (s2 & loc2 & E).
    exists s2, loc2. split; [exact E |].
    destruct (class_step_same_config scale dist pred gt b c loc s1) as [_ Hc'].
    rewrite E in Hc'. cbn [fst] in Hc'. congruence.
  - rewrite E. eexists _, tt. split; [reflexivity |]. exact Hn1.
Qed.

Lemma ingestion_of_well_formed_input_returns_witness :
  exists s',
    update_seld_scores_xyz (init 20 1) (one_class track_minus_x)
      (one_class track_x) = (s', Ok tt).
Proof.
  assert (W : forall t : track xyz,
             snd t <> [] -> (length (fst t) <= length (snd t))%nat ->
             well_formed (size (one_class track_x)) (_nb_classes (init 20 1))
               (one_class t)).
  { intros t H0 Hlen b Hb.
    change (size (one_class track_x)) with 1%nat in Hb.
    assert (b = 0%nat) as -> by lia.
    exists {[ 0%nat := [t] ]}. split; [reflexivity |].
    intros c tracks Hc Hl. cbn [_nb_classes init] in Hc.
    assert (c = 0%nat) as -> by lia.
    rewrite lookup_singleton_eq in Hl. inversion Hl; subst tracks.
    exists t, []. repeat split; assumption. }
  apply (ingestion_of_well_formed_input_returns (fun c => c) dist_xyz
           (one_class track_minus_x) (one_class track_x) (init 20 1)).
  - apply W; [discriminate | cbn; lia].
  - apply W; [discriminate | cbn; lia].
Defined.



(** ** What a call reads *)

Lemma for_each_ext {X A : Type} (Inv : SELDMetrics -> Prop)
    (body body' : X -> A -> M A) (xs : list X) :
  (forall x a s, In x xs -> Inv s -> body x a s = body' x a s) ->
  (forall x a s, Inv s -> Inv (fst (body x a s))) ->
  forall a s, Inv s -> for_each body xs a s = for_each body' xs a s.
Proof.
  induction xs as [| x xs IH]; intros Hext Hinv a s HI; cbn [for_each];
    [reflexivity |].
  unfold bind. rewrite <- (Hext x a s (or_introl eq_refl) HI).
  pose proof (Hinv x a s HI) as HI1.
  destruct (body x a s) as [s1 [a1 | e]]; [| reflexivity].
  apply IH; [| exact Hinv | exact HI1].
  intros y b t Hy. apply Hext. right. exact Hy.
Qed.

Lemma class_step_ext {Coord : Type}
    (scale : Coord -> Coord) (dist : Coord -> Coord -> R)
    (pred pred' gt gt' : annotations Coord) (B n block_cnt class_cnt : nat)
    (loc : Z * Z) (s : SELDMetrics) :
  same_window B n gt gt' -> same_window B n pred pred' ->
  (block_cnt < B)%nat -> (class_cnt < n)%nat ->
  class_step scale dist pred gt block_cnt class_cnt loc s
  = class_step scale dist pred' gt' block_cnt class_cnt loc s.
Proof.
  intros Wg Wp Hb Hc. destruct loc as [loc_FN loc_FP].
  specialize (Wg block_cnt Hb). specialize (Wp block_cnt Hb).
  destruct (gt !! block_cnt) as [gt_b |] eqn:Hg,
           (gt' !! block_cnt) as [gt_b' |] eqn:Hg'; try contradiction.
  2:{ rewrite !class_step_no_gt by assumption. reflexivity. }
  specialize (Wg class_cnt Hc).
  destruct (pred !! block_cnt) as [pred_b |] eqn:Hp,
           (pred' !! block_cnt) as [pred_b' |] eqn:Hp'; try contradiction.
  2:{ rewrite (class_step_no_pred _ _ _ _ _ _ _ _ _ Hg Hp),
              (class_step_no_pred _ _ _ _ _ _ _ _ _ Hg' Hp').
      unfold contains. rewrite Wg. reflexivity. }
  specialize (Wp class_cnt Hc).
  rewrite (class_step_cases _ _ _ _ _ _ _ _ _ _ _ Hg Hp),
          (class_step_cases _ _ _ _ _ _ _ _ _ _ _ Hg' Hp').
  rewrite Wg, Wp. reflexivity.
Qed.

(** X25. A call only reads the blocks below the number of ground-truth
    blocks and, inside them, the classes below [_nb_classes]: two pairs of
    dictionaries that agree there (and have the same number of ground-truth
    blocks) give the same accumulator and the same outcome. *)
Theorem ingestion_reads_only_its_window {Coord : Type}
    (scale : Coord -> Coord) (dist : Coord -> Coord -> R)
    (pred pred' gt gt' : annotations Coord) (s : SELDMetrics) :
  size gt = size gt' ->
  same_window (size gt) (_nb_classes s) gt gt' ->
  same_window (size gt) (_nb_classes s) pred pred' ->
  update_with scale dist pred gt s = update_with scale dist pred' gt' s.
Proof.
  intros Hsize Wg Wp. unfold update_with. rewrite <- Hsize.
  set (n := _nb_classes s) in *.
  apply (for_each_ext (fun s0 => _nb_classes s0 = n)); [| | reflexivity].
  - intros b [] s0 Hb Hn. apply in_seq in Hb.
    unfold block_step, class_loop, bind, attr. rewrite Hn.
    rewrite (for_each_ext (fun _ => True)
               (class_step scale dist pred gt b)
               (class_step scale dist pred' gt' b) (seq 0 n));
      [reflexivity | | trivial | exact I].
    intros c loc s1 Hc _. apply in_seq in Hc.
    apply (class_step_ext scale dist pred pred' gt gt' (size gt) n);
      [assumption | assumption | lia | lia].
  - intros b a s0 Hn.
    destruct (block_step_same_config scale dist pred gt b s0) as [_ Hc].
    congruence.
Qed.

Lemma ingestion_reads_only_its_window_witness :
  update_seld_scores_xyz (init 20 1) (one_class track_minus_x) (one_class track_x)
  = update_seld_scores_xyz (init 20 1)
      (<[ 7%nat := ∅ ]> (one_class track_minus_x)) (one_class track_x).
Proof.
  apply (ingestion_reads_only_its_window (fun c => c) dist_xyz).
  - reflexivity.
  - intros b Hb. destruct (one_class track_x !! b); [reflexivity | exact I].
  - intros b Hb. change (size (one_class track_x)) with 1%nat in Hb.
    assert (b = 0%nat) as -> by lia.
    rewrite lookup_insert_ne by lia. unfold one_class.
    rewrite lookup_singleton_eq. reflexivity.
Defined.

(** ** Counters are additive *)

Ltac shift_adds :=
  apply SELDMetrics_ext; cbn; try lia; try lra; reflexivity.

Lemma shift_add_TP d n s : add_TP n (shift d s) = shift d (add_TP n s).
Proof. shift_adds. Qed.
Lemma shift_add_FP d n s : add_FP n (shift d s) = shift d (add_FP n s).
Proof. shift_adds. Qed.
Lemma shift_add_TN d n s : add_TN n (shift d s) = shift d (add_TN n s).
Proof. shift_adds. Qed.
Lemma shift_add_FN d n s : add_FN n (shift d s) = shift d (add_FN n s).
Proof. shift_adds. Qed.
Lemma shift_add_S d n s : add_S n (shift d s) = shift d (add_S n s).
Proof. shift_adds. Qed.
Lemma shift_add_D d n s : add_D n (shift d s) = shift d (add_D n s).
Proof. shift_adds. Qed.
Lemma shift_add_I d n s : add_I n (shift d s) = shift d (add_I n s).
Proof. shift_adds. Qed.
Lemma shift_add_Nref d n s : add_Nref n (shift d s) = shift d (add_Nref n s).
Proof. shift_adds. Qed.
Lemma shift_add_Nsys d n s : add_Nsys n (shift d s) = shift d (add_Nsys n s).
Proof. shift_adds. Qed.
Lemma shift_add_DE_TP d n s : add_DE_TP n (shift d s) = shift d (add_DE_TP n s).
Proof. shift_adds. Qed.
Lemma shift_add_total_DE d x s :
  add_total_DE x (shift d s) = shift d (add_total_DE x s).
Proof. shift_adds. Qed.

Lemma shift_init s : shift s (init (_spatial_T s) (_nb_classes s)) = s.
Proof. shift_adds. Qed.

Lemma for_each_shift {X A : Type} (d : SELDMetrics) (body : X -> A -> M A) :
  (forall x a s, body x a (shift d s)
                 = (shift d (fst (body x a s)), snd (body x a s))) ->
  forall xs a s,
    for_each body xs a (shift d s)
    = (shift d (fst (for_each body xs a s)), snd (for_each body xs a s)).
Proof.
  intros Hbody.
  induction xs as [| x xs IH]; intros a s; cbn [for_each]; [reflexivity |].
  unfold bind. rewrite Hbody.
  destruct (body x a s) as [s1 [a1 | e]]; cbn [fst snd]; [apply IH | reflexivity].
Qed.

Section Additive.

Context {Coord : Type}.
Variable scale : Coord -> Coord.
Variable dist : Coord -> Coord -> R.

Lemma score_both_shift d total n loc_FN loc_FP s :
  score_both total n loc_FN loc_FP (shift d s)
  = (shift d (fst (score_both total n loc_FN loc_FP s)),
     snd (score_both total n loc_FN loc_FP s)).
Proof.
  unfold score_both.
  destruct (Reqb total 0 && Z.eqb n 0); cbn [fst snd].
  - rewrite shift_add_FN. reflexivity.
  - cbn zeta. change (_spatial_T (shift d s)) with (_spatial_T s).
    destruct (Rleb _ _); cbn [fst snd];
      rewrite shift_add_total_DE, shift_add_DE_TP;
      [rewrite shift_add_TP | rewrite shift_add_FN]; reflexivity.
Qed.

Lemma class_step_shift d (pred gt : annotations Coord) block_cnt class_cnt loc s :
  class_step scale dist pred gt block_cnt class_cnt loc (shift d s)
  = (shift d (fst (class_step scale dist pred gt block_cnt class_cnt loc s)),
     snd (class_step scale dist pred gt block_cnt class_cnt loc s)).
Proof.
  destruct loc as [loc_FN loc_FP].
  destruct (gt !! block_cnt) as [gt_b |] eqn:Hg;
    [| rewrite !class_step_no_gt by exact Hg; reflexivity].
  destruct (pred !! block_cnt) as [pred_b |] eqn:Hp.
  2:{ rewrite !(class_step_no_pred _ _ _ _ _ _ _ _ _ Hg Hp).
      destruct (contains class_cnt gt_b); cbn [fst snd];
        [rewrite shift_add_Nref |]; reflexivity. }
  rewrite !(class_step_cases _ _ _ _ _ _ _ _ _ _ _ Hg Hp).
  destruct (gt_b !! class_cnt) as [gt_tracks |],
           (pred_b !! class_cnt) as [pred_tracks |]; cbn [fst snd].
  - destruct (matched_distance scale dist gt_tracks pred_tracks)
      as [[total n] | e]; cbn [fst snd];
      rewrite shift_add_Nref, shift_add_Nsys; [| reflexivity].
    apply score_both_shift.
  - rewrite shift_add_Nref, shift_add_FN. reflexivity.
  - rewrite shift_add_Nsys, shift_add_FP. reflexivity.
  - rewrite shift_add_TN. reflexivity.
Qed.

Lemma block_step_shift d (pred gt : annotations Coord) block_cnt s :
  block_step scale dist pred gt block_cnt (shift d s)
  = (shift d (fst (block_step scale dist pred gt block_cnt s)),
     snd (block_step scale dist pred gt block_cnt s)).
Proof.
  unfold block_step, class_loop, bind, attr, modify.
  change (_nb_classes (shift d s)) with (_nb_classes s).
  rewrite (for_each_shift d (class_step scale dist pred gt block_cnt)
             (class_step_shift d pred gt block_cnt)).
  destruct (for_each (class_step scale dist pred gt block_cnt)
              (seq 0 (_nb_classes s)) (0, 0) s)
    as [s1 [[loc_FN loc_FP] | e]]; cbn [fst snd]; [| reflexivity].
  rewrite shift_add_S, shift_add_D, shift_add_I. reflexivity.
Qed.

Lemma update_with_shift d (pred gt : annotations Coord) s :
  update_with scale dist pred gt (shift d s)
  = (shift d (fst (update_with scale dist pred gt s)),
     snd (update_with scale dist pred gt s)).
Proof.
  unfold update_with.
  apply (for_each_shift d (fun block_cnt (_ : unit) =>
                             block_step scale dist pred gt block_cnt)).
  intros b a s0. apply block_step_shift.
Qed.

End Additive.

(** X26. What a call adds to the counters, and whether it returns or
    raises, does not depend on the counters it starts from: the result on
    any accumulator is the result on a fresh accumulator with the same
    threshold and number of classes, with the old counters added. *)
Theorem ingestion_is_additive (self : SELDMetrics)
    (pred gt : annotations xyz) (pred_deg gt_deg : annotations azi_ele) :
  let fresh := init (_spatial_T self) (_nb_classes self) in
  update_seld_scores_xyz self pred gt
  = (shift self (fst (update_seld_scores_xyz fresh pred gt)),
     snd (update_seld_scores_xyz fresh pred gt))
  /\ update_seld_scores self pred_deg gt_deg
     = (shift self (fst (update_seld_scores fresh pred_deg gt_deg)),
        snd (update_seld_scores fresh pred_deg gt_deg)).
Proof.
  cbn zeta. unfold update_seld_scores_xyz, update_seld_scores.
  rewrite <- !update_with_shift, shift_init. split; reflexivity.
Qed.

(** ** A prediction equal to the reference *)


Section ExactMatch.

Context {Coord : Type}.
Variable scale : Coord -> Coord.
Variable dist : Coord -> Coord -> R.
Hypothesis dist_same : forall c, dist c c = 0%R.



End ExactMatch.



(** ** Tracks after the first *)

Lemma matched_distance_first_only {Coord : Type}
    (scale : Coord -> Coord) (dist : Coord -> Coord -> R)
    (gt_tracks pred_tracks : list (track Coord)) :
  matched_distance scale dist (take 1 gt_tracks) (take 1 pred_tracks)
  = matched_distance scale dist gt_tracks pred_tracks.
Proof. destruct gt_tracks, pred_tracks; reflexivity. Qed.

Lemma class_step_first_only {Coord : Type}
    (scale : Coord -> Coord) (dist : Coord -> Coord -> R)
    (pred gt : annotations Coord) (block_cnt class_cnt : nat)
    (loc : Z * Z) (s : SELDMetrics) :
  class_step scale dist (first_track_only pred) (first_track_only gt)
    block_cnt class_cnt loc s
  = class_step scale dist pred gt block_cnt class_cnt loc s.
Proof.
  destruct loc as [loc_FN loc_FP].
  assert (Hg' : first_track_only gt !! block_cnt
                = fmap (take 1) <$> gt !! block_cnt)
    by (unfold first_track_only; apply lookup_fmap).
  assert (Hp' : first_track_only pred !! block_cnt
                = fmap (take 1) <$> pred !! block_cnt)
    by (unfold first_track_only; apply lookup_fmap).
  destruct (gt !! block_cnt) as [gt_b |] eqn:Hg; cbn in Hg'.
  2:{ rewrite !class_step_no_gt by assumption. reflexivity. }
  assert (Cg : contains class_cnt (take 1 <$> gt_b) = contains class_cnt gt_b)
    by (unfold contains; rewrite lookup_fmap;
        destruct (gt_b !! class_cnt); reflexivity).
  destruct (pred !! block_cnt) as [pred_b |] eqn:Hp; cbn in Hp'.
  2:{ rewrite (class_step_no_pred _ _ _ _ _ _ _ _ _ Hg Hp),
              (class_step_no_pred _ _ _ _ _ _ _ _ _ Hg' Hp'), Cg.
      reflexivity. }
  rewrite (class_step_cases _ _ _ _ _ _ _ _ _ _ _ Hg Hp),
          (class_step_cases _ _ _ _ _ _ _ _ _ _ _ Hg' Hp').
  rewrite !lookup_fmap.
  destruct (gt_b !! class_cnt) as [gt_tracks |],
           (pred_b !! class_cnt) as [pred_tracks |]; cbn; try reflexivity.
  rewrite matched_distance_first_only. reflexivity.
Qed.

(** X28. Only the first track of a class is ever read: cutting every
    list of tracks of both dictionaries down to its first element changes
    neither the resulting accumulator nor the outcome of a call. *)
Theorem ingestion_reads_first_track_only {Coord : Type}
    (scale : Coord -> Coord) (dist : Coord -> Coord -> R)
    (pred gt : annotations Coord) (s : SELDMetrics) :
  update_with scale dist (first_track_only pred) (first_track_only gt) s
  = update_with scale dist pred gt s.
Proof.
  unfold update_with.
  replace (size (first_track_only gt)) with (size gt)
    by (unfold first_track_only; symmetry; apply map_size_fmap).
  apply (for_each_ext (fun _ => True)); [| trivial | exact I].
  intros b [] s0 _ _. unfold block_step, class_loop, bind, attr.
  rewrite (for_each_ext (fun _ => True)
             (class_step scale dist (first_track_only pred)
                (first_track_only gt) b)
             (class_step scale dist pred gt b) (seq 0 (_nb_classes s0)));
    [reflexivity | | trivial | exact I].
  intros c loc s1 _ _. apply class_step_first_only.
Qed.

(** ** Raising the threshold *)

Lemma for_each_related {X A : Type} (Rel : SELDMetrics -> SELDMetrics -> Prop)
    (body body' : X -> A -> M A) :
  (forall x a a' s s',
      Rel s s' ->
      Rel (fst (body x a s)) (fst (body' x a' s')) /\
      raised (snd (body x a s)) = raised (snd (body' x a' s'))) ->
  forall xs a a' s s',
    Rel s s' ->
    Rel (fst (for_each body xs a s)) (fst (for_each body' xs a' s')) /\
    raised (snd (for_each body xs a s)) = raised (snd (for_each body' xs a' s')).
Proof.
  intros Hbody.
  induction xs as [| x xs IH]; intros a a' s s' HR; cbn [for_each].
  - split; [exact HR | reflexivity].
  - unfold bind. destruct (Hbody x a a' s s' HR) as [HR1 Ho].
    destruct (body x a s) as [s1 [a1 | e]], (body' x a' s') as [s1' [a1' | e']];
      cbn [fst snd raised] in *; try discriminate.
    + apply IH. exact HR1.
    + split; [exact HR1 | exact Ho].
Qed.

Section Threshold.

Context {Coord : Type}.
Variable scale : Coord -> Coord.
Variable dist : Coord -> Coord -> R.

Lemma score_both_more_tolerant total n loc_FN loc_FP loc_FN' loc_FP' s s' :
  more_tolerant s s' ->
  more_tolerant (fst (score_both total n loc_FN loc_FP s))
                (fst (score_both total n loc_FN' loc_FP' s')) /\
  raised (snd (score_both total n loc_FN loc_FP s))
  = raised (snd (score_both total n loc_FN' loc_FP' s')).
Proof.
  intros (HT & Hn & H1 & H2 & H3 & H4 & H5 & H6 & H7 & H8).
  unfold score_both.
  destruct (Reqb total 0 && Z.eqb n 0); cbn [fst snd raised].
  { split; [| reflexivity]. unfold more_tolerant; cbn.
    repeat split; try assumption; try lia. }
  cbn zeta. unfold Rleb.
  destruct (Rle_dec (total / IZR n) (_spatial_T s)) as [L | L],
           (Rle_dec (total / IZR n) (_spatial_T s')) as [L' | L'];
    cbn [fst snd raised]; try lra;
    (split; [| reflexivity]); unfold more_tolerant; cbn;
    rewrite H6; repeat split; try assumption; try lia.
Qed.

Lemma class_step_more_tolerant (pred gt : annotations Coord) block_cnt class_cnt
    loc loc' s s' :
  more_tolerant s s' ->
  more_tolerant
    (fst (class_step scale dist pred gt block_cnt class_cnt loc s))
    (fst (class_step scale dist pred gt block_cnt class_cnt loc' s')) /\
  raised (snd (class_step scale dist pred gt block_cnt class_cnt loc s))
  = raised (snd (class_step scale dist pred gt block_cnt class_cnt loc' s')).
Proof.
  intros HR. destruct loc as [loc_FN loc_FP], loc' as [loc_FN' loc_FP'].
  pose proof HR as (HT & Hn & H1 & H2 & H3 & H4 & H5 & H6 & H7 & H8).
  destruct (gt !! block_cnt) as [gt_b |] eqn:Hg.
  2:{ rewrite !class_step_no_gt by exact Hg. split; [exact HR | reflexivity]. }
  destruct (pred !! block_cnt) as [pred_b |] eqn:Hp.
  2:{ rewrite !(class_step_no_pred _ _ _ _ _ _ _ _ _ Hg Hp).
      split; [| reflexivity].
      destruct (contains class_cnt gt_b); [| exact HR].
      unfold more_tolerant; cbn. repeat split; try assumption; lia. }
  rewrite !(class_step_cases _ _ _ _ _ _ _ _ _ _ _ Hg Hp).
  destruct (gt_b !! class_cnt) as [gt_tracks |],
           (pred_b !! class_cnt) as [pred_tracks |]; cbn [fst snd raised];
    try (split; [| reflexivity]; unfold more_tolerant; cbn;
         repeat split; try assumption; lia).
  destruct (matched_distance scale dist gt_tracks pred_tracks)
    as [[total n] | e]; cbn [fst snd raised].
  - apply score_both_more_tolerant.
    unfold more_tolerant; cbn. repeat split; try assumption; lia.
  - split; [| reflexivity]. unfold more_tolerant; cbn.
    repeat split; try assumption; lia.
Qed.

Lemma update_with_more_tolerant (pred gt : annotations Coord) s s' :
  more_tolerant s s' ->
  more_tolerant (fst (update_with scale dist pred gt s))
                (fst (update_with scale dist pred gt s')) /\
  raised (snd (update_with scale dist pred gt s))
  = raised (snd (update_with scale dist pred gt s')).
Proof.
  unfold update_with. apply for_each_related.
  intros b [] [] s0 s0' HR.
  unfold block_step, class_loop, bind, attr, modify.
  pose proof HR as (_ & Hn & _). rewrite <- Hn.
  destruct (for_each_related more_tolerant
              (class_step scale dist pred gt b)
              (class_step scale dist pred gt b)
              (fun c a a' t t' => class_step_more_tolerant pred gt b c a a' t t')
              (seq 0 (_nb_classes s0)) (0, 0) (0, 0) s0 s0' HR) as [HR1 Ho].
  destruct (for_each (class_step scale dist pred gt b)
              (seq 0 (_nb_classes s0)) (0, 0) s0) as [s1 [[fn fp] | e]],
           (for_each (class_step scale dist pred gt b)
              (seq 0 (_nb_classes s0)) (0, 0) s0') as [s1' [[fn' fp'] | e']];
    cbn [fst snd raised] in *; try discriminate.
  - split; [| reflexivity].
    destruct HR1 as (HT & Hn1 & H1 & H2 & H3 & H4 & H5 & H6 & H7 & H8).
    unfold more_tolerant; cbn. repeat split; assumption.
  - split; [exact HR1 | exact Ho].
Qed.

End Threshold.

(** X29. Running the same call with a larger spatial threshold changes
    neither whether it returns or raises nor [_Nref], [_Nsys], [_FP],
    [_TN], [_DE_TP], [_total_DE]; it only moves classes from [_FN] to
    [_TP]: [_TP] does not decrease and [_TP + _FN] stays the same. *)
Theorem raising_the_threshold_moves_FN_to_TP (self self' : SELDMetrics)
    (pred gt : annotations xyz) (pred_deg gt_deg : annotations azi_ele) :
  more_tolerant self self' ->
  (more_tolerant (fst (update_seld_scores_xyz self pred gt))
                 (fst (update_seld_scores_xyz self' pred gt)) /\
   raised (snd (update_seld_scores_xyz self pred gt))
   = raised (snd (update_seld_scores_xyz self' pred gt)))
  /\ (more_tolerant (fst (update_seld_scores self pred_deg gt_deg))
                    (fst (update_seld_scores self' pred_deg gt_deg)) /\
      raised (snd (update_seld_scores self pred_deg gt_deg))
      = raised (snd (update_seld_scores self' pred_deg gt_deg))).
Proof.
  intros HR. split; apply update_with_more_tolerant; exact HR.
Qed.

Lemma raising_the_threshold_moves_FN_to_TP_witness :
  more_tolerant
    (fst (update_seld_scores_xyz (init 20 1)
            (one_class track_minus_x) (one_class track_x)))
    (fst (update_seld_scores_xyz (init 90 1)
            (one_class track_minus_x) (one_class track_x))).
Proof.
  refine (proj1 (proj1 (raising_the_threshold_moves_FN_to_TP
                          (init 20 1) (init 90 1)
                          (one_class track_minus_x) (one_class track_x)
                          ∅ ∅ _))).
  unfold more_tolerant. cbn [_spatial_T _nb_classes _Nref _Nsys _FP _TN
                             _DE_TP _total_DE _TP _FN init].
  repeat split; try reflexivity; try lia. lra.
Defined.

(** ** A call followed pair by pair *)

Lemma same_detection_refl s : same_detection s s.
Proof. unfold same_detection. repeat split; reflexivity. Qed.

Lemma fired_same_l s s0 s' visited :
  same_detection s s0 -> fired_in_turn s0 visited s' ->
  fired_in_turn s visited s'.
Proof.
  intros (E1 & E2 & E3 & E4) H. destruct H as [s0 s' (F1 & F2 & F3 & F4)
                                              | s0 s1 s' b c o visited Hf Hrest].
  - apply fired_none. unfold same_detection. repeat split; congruence.
  - apply (fired_next s s1); [| exact Hrest].
    destruct Hf as (F1 & F2 & F3 & F4).
    unfold fires. repeat split; congruence.
Qed.

Lemma fired_same_r s s1 s' visited :
  fired_in_turn s visited s1 -> same_detection s1 s' ->
  fired_in_turn s visited s'.
Proof.
  intros H (E1 & E2 & E3 & E4).
  induction H as [s s1 (F1 & F2 & F3 & F4) | s s2 s1 b c o visited Hf Hrest IH].
  - apply fired_none. unfold same_detection. repeat split; congruence.
  - apply (fired_next s s2); [exact Hf | apply IH; assumption].
Qed.

Lemma fired_app s s1 s' visited visited' :
  fired_in_turn s visited s1 -> fired_in_turn s1 visited' s' ->
  fired_in_turn s (visited ++ visited') s'.
Proof.
  intros H H'.
  induction H as [s s1 Hsame | s s2 s1 b c o visited Hf Hrest IH]; cbn [app].
  - exact (fired_same_l _ _ _ _ Hsame H').
  - apply (fired_next s s2); [exact Hf | apply IH; exact H'].
Qed.

Lemma fired_tally s s' visited :
  fired_in_turn s visited s' ->
  _TP s' = _TP s + tally TP_case visited /\
  _FP s' = _FP s + tally FP_case visited /\
  _TN s' = _TN s + tally TN_case visited /\
  _FN s' = _FN s + tally FN_case visited.
Proof.
  induction 1 as [s s' (E1 & E2 & E3 & E4)
                 | s s1 s' b c o visited (F1 & F2 & F3 & F4) Hrest IH];
    cbn [tally].
  - repeat split; lia.
  - destruct IH as (I1 & I2 & I3 & I4). repeat split; lia.
Qed.

Section PairByPair.

Context {Coord : Type}.
Variable scale : Coord -> Coord.
Variable dist : Coord -> Coord -> R.
Variables pred gt : annotations Coord.

(** A class step that raises has not touched the detection counters. *)
Lemma class_step_raise_same_detection block_cnt class_cnt loc s s1 e :
  class_step scale dist pred gt block_cnt class_cnt loc s = (s1, Raise e) ->
  same_detection s s1.
Proof.
  intros H. destruct loc as [loc_FN loc_FP].
  destruct (gt !! block_cnt) as [gt_b |] eqn:Hg.
  2:{ rewrite class_step_no_gt in H by exact Hg. inversion H; subst.
      apply same_detection_refl. }
  destruct (pred !! block_cnt) as [pred_b |] eqn:Hp.
  2:{ rewrite (class_step_no_pred _ _ _ _ _ _ _ _ _ Hg Hp) in H.
      inversion H; subst.
      destruct (contains class_cnt gt_b); unfold same_detection; cbn;
        repeat split; reflexivity. }
  rewrite (class_step_cases _ _ _ _ _ _ _ _ _ _ _ Hg Hp) in H.
  destruct (gt_b !! class_cnt) as [gt_tracks |],
           (pred_b !! class_cnt) as [pred_tracks |]; try discriminate.
  destruct (matched_distance scale dist gt_tracks pred_tracks)
    as [[total n] | e'].
  - destruct (score_both_outcome total n loc_FN loc_FP
                (add_Nsys 1 (add_Nref 1 s))) as (s2 & l2 & o & E & _).
    rewrite E in H. discriminate.
  - inversion H; subst. unfold same_detection; cbn.
    repeat split; reflexivity.
Qed.

Lemma class_steps_trace block_cnt :
  forall classes loc s,
  exists visited rest,
    map (fun c => (block_cnt, c)) classes = map fst visited ++ rest /\
    Forall (allowed pred gt) visited /\
    fired_in_turn s visited
      (fst (for_each (class_step scale dist pred gt block_cnt) classes loc s)) /\
    (forall loc',
        snd (for_each (class_step scale dist pred gt block_cnt) classes loc s)
        = Ok loc' -> rest = []) /\
    (forall e,
        snd (for_each (class_step scale dist pred gt block_cnt) classes loc s)
        = Raise e -> rest <> []).
Proof.
  induction classes as [| c classes IH]; intros loc s.
  - exists [], []. cbn. repeat split.
    + constructor.
    + apply fired_none, same_detection_refl.
    + intros e H. discriminate.
  - cbn [for_each]. unfold bind.
    destruct (class_step scale dist pred gt block_cnt c loc s)
      as [s1 [loc1 | e]] eqn:E.
    + destruct (class_step_exactly_one_outcome _ _ _ _ _ _ _ _ _ _ E)
        as (gt_b & pred_b & o & Hg & Hp & Hf & _ & Hm).
      destruct (IH loc1 s1) as (visited & rest & Hpairs & Hall & Hfired & Hok & Hraise).
      exists ((block_cnt, c, o) :: visited), rest.
      split; [cbn [map fst app]; rewrite Hpairs; reflexivity |].
      split; [constructor; [exists gt_b, pred_b; auto | exact Hall] |].
      split; [apply (fired_next s s1); assumption |].
      split; assumption.
    + exists [], ((block_cnt, c) :: map (fun c0 => (block_cnt, c0)) classes).
      cbn [map fst snd app]. repeat split.
      * constructor.
      * apply fired_none.
        exact (class_step_raise_same_detection _ _ _ _ _ _ E).
      * intros loc' H. discriminate.
      * intros e' _ H. discriminate.
Qed.

Lemma blocks_trace (n : nat) :
  forall blocks s,
    _nb_classes s = n ->
    exists visited rest,
      pairs_of n blocks = map fst visited ++ rest /\
      Forall (allowed pred gt) visited /\
      fired_in_turn s visited
        (fst (for_each (fun block_cnt (_ : unit) =>
                          block_step scale dist pred gt block_cnt)
                blocks tt s)) /\
      (snd (for_each (fun block_cnt (_ : unit) =>
                        block_step scale dist pred gt block_cnt)
              blocks tt s) = Ok tt -> rest = []) /\
      (forall e,
          snd (for_each (fun block_cnt (_ : unit) =>
                           block_step scale dist pred gt block_cnt)
                 blocks tt s) = Raise e -> rest <> []).
Proof.
  induction blocks as [| b blocks IH]; intros s Hn.
  - exists [], []. cbn. repeat split.
    + constructor.
    + apply fired_none, same_detection_refl.
    + intros e H. discriminate.
  - assert (Hpairs : pairs_of n (b :: blocks)
                     = map (fun c => (b, c)) (seq 0 n) ++ pairs_of n blocks)
      by reflexivity.
    rewrite Hpairs.
    destruct (class_steps_trace b (seq 0 n) (0, 0) s)
      as (visited_b & rest_b & Hb & Hall_b & Hfired_b & Hok_b & Hraise_b).
    pose proof (class_loop_same_config scale dist pred gt b s) as [_ Hcfg].
    assert (Hstep :
      block_step scale dist pred gt b s
      = match for_each (class_step scale dist pred gt b) (seq 0 n) (0, 0) s with
        | (s1, Ok (loc_FN, loc_FP)) =>
            (add_I (Z.max 0 (loc_FP - loc_FN))
               (add_D (Z.max 0 (loc_FN - loc_FP))
                  (add_S (Z.min loc_FP loc_FN) s1)), Ok tt)
        | (s1, Raise e) => (s1, Raise e)
        end).
    { unfold block_step, class_loop, bind, attr, modify. rewrite Hn.
      destruct (for_each (class_step scale dist pred gt b) (seq 0 n) (0, 0) s)
        as [s1 [[loc_FN loc_FP] | e]]; reflexivity. }
    cbn [for_each]. unfold bind. rewrite Hstep.
    unfold class_loop, bind, attr in Hcfg. rewrite Hn in Hcfg.
    destruct (for_each (class_step scale dist pred gt b) (seq 0 n) (0, 0) s)
      as [s1 [[loc_FN loc_FP] | e]]; cbn [fst snd] in *.
    + rewrite (Hok_b _ eq_refl), app_nil_r in Hb.
      set (s2 := add_I (Z.max 0 (loc_FP - loc_FN))
                   (add_D (Z.max 0 (loc_FN - loc_FP))
                      (add_S (Z.min loc_FP loc_FN) s1))).
      destruct (IH s2 Hcfg)
        as (visited & rest & Hrest & Hall & Hfired & Hok & Hraise).
      exists (visited_b ++ visited), rest.
      split; [rewrite map_app, Hb, Hrest, app_assoc; reflexivity |].
      split; [apply Forall_app_2; assumption |].
      split; [| split; assumption].
      apply (fired_app s s2); [| exact Hfired].
      apply (fired_same_r s s1); [exact Hfired_b |].
      unfold same_detection, s2; cbn. repeat split; reflexivity.
    + exists visited_b, (rest_b ++ pairs_of n blocks).
      split; [rewrite Hb, app_assoc; reflexivity |].
      split; [exact Hall_b |].
      split; [exact Hfired_b |].
      split; [intros H; discriminate |].
      intros e' _ H. apply app_eq_nil in H. destruct H as [H _].
      exact (Hraise_b e eq_refl H).
Qed.

End PairByPair.

(** C7 (as amended). In every ingestion call the pairs (block, class) with
    block below the number of ground-truth blocks and class below
    [_nb_classes] are taken in order.  Up to the first exception every pair
    fires exactly one of TP / FP / TN / FN, the one its two memberships
    allow (both present: TP or FN; ground truth only: FN; prediction only:
    FP; neither: TN), and the four counters move by these firings and
    nothing else.  A call that returns has gone through every pair; a call
    that raises has left the raising pair and all later ones without any
    firing. *)
Theorem every_pair_fires_once_until_a_raise {Coord : Type}
    (scale : Coord -> Coord) (dist : Coord -> Coord -> R)
    (pred gt : annotations Coord) (s : SELDMetrics) :
  exists (visited : list (nat * nat * detection)) (rest : list (nat * nat)),
    pairs (size gt) (_nb_classes s) = map fst visited ++ rest /\
    Forall (allowed pred gt) visited /\
    fired_in_turn s visited (fst (update_with scale dist pred gt s)) /\
    (_TP (fst (update_with scale dist pred gt s))
     = _TP s + tally TP_case visited /\
     _FP (fst (update_with scale dist pred gt s))
     = _FP s + tally FP_case visited /\
     _TN (fst (update_with scale dist pred gt s))
     = _TN s + tally TN_case visited /\
     _FN (fst (update_with scale dist pred gt s))
     = _FN s + tally FN_case visited) /\
    (snd (update_with scale dist pred gt s) = Ok tt -> rest = []) /\
    (forall e, snd (update_with scale dist pred gt s) = Raise e -> rest <> []).
Proof.
  unfold update_with, pairs.
  destruct (blocks_trace scale dist pred gt (_nb_classes s)
              (seq 0 (size gt)) s eq_refl)
    as (visited & rest & Hpairs & Hall & Hfired & Hok & Hraise).
  exists visited, rest.
  split; [exact Hpairs |]. split; [exact Hall |].
  split; [exact Hfired |].
  split; [exact (fired_tally _ _ _ Hfired) |].
  split; assumption.
Qed.

(** C7 (as stated) fails on a call that raises.  Class 0 of the only block
    is present on both sides with two frames but a single location; the
    second matched frame has no row, the class step stops with an
    [IndexError] after counting the reference and the prediction, and none
    of TP / FP / TN / FN has fired for the pair (0, 0). *)
Lemma raising_pair_fires_nothing :
  update_seld_scores_xyz (init 20 1)
    (one_class track_short) (one_class track_short)
  = (add_Nsys 1 (add_Nref 1 (init 20 1)), Raise IndexError)
  /\ pairs (size (one_class track_short)) (_nb_classes (init 20 1)) = [(0, 0)%nat]
  /\ ~ exists o,
       fires o (init 20 1)
         (fst (update_seld_scores_xyz (init 20 1)
                 (one_class track_short) (one_class track_short))).
Proof.
  assert (Hrun : update_seld_scores_xyz (init 20 1)
                   (one_class track_short) (one_class track_short)
                 = (add_Nsys 1 (add_Nref 1 (init 20 1)), Raise IndexError)).
  { unfold update_seld_scores_xyz, update_with.
    change (size (one_class track_short)) with 1%nat.
    cbn [seq for_each]. unfold bind at 1.
    unfold block_step, class_loop, bind, attr.
    cbn [_nb_classes init seq for_each]. unfold bind.
    rewrite (class_step_cases (fun c => c) dist_xyz
               (one_class track_short) (one_class track_short) 0 0 0 0
               (init 20 1) {[ 0%nat := [track_short] ]}
               {[ 0%nat := [track_short] ]} eq_refl eq_refl).
    rewrite lookup_singleton_eq. reflexivity. }
  split; [exact Hrun |]. split; [reflexivity |].
  rewrite Hrun. intros [o (H1 & H2 & H3 & H4)].
  cbn in H1, H2, H3, H4. destruct o; cbn in *; lia.
Qed.

(** ** Which prediction row a matched frame is compared with *)

Lemma index_of_is_first (v : nat) (l : list nat) (j : nat) :
  nth_error l j = Some v ->
  (forall k, (k < j)%nat -> nth_error l k <> Some v) ->
  index_of v l = Some j.
Proof.
  intros Hj Hfirst.
  destruct (index_of v l) as [i |] eqn:Hi.
  - destruct (index_of_lookup _ _ _ Hi) as [Hi' Hfirst'].
    destruct (Nat.lt_trichotomy i j) as [Hlt | [-> | Hgt]].
    + exfalso. exact (Hfirst i Hlt Hi').
    + reflexivity.
    + exfalso. exact (Hfirst' j Hgt Hj).
  - exfalso. apply index_of_absent in Hi. apply Hi.
    eapply nth_error_In. exact Hj.
Qed.

(** X22. In the frame loop, a ground-truth frame whose index does not
    occur in the prediction's frame list is skipped, and a frame whose index
    occurs is compared with the prediction row at the first position of that
    index.  So a class whose reference has one frame, matched first at
    position [j] of the prediction, adds to [_total_DE] the distance between
    the reference row and prediction row [j], and one to [_DE_TP]. *)
Theorem frame_loop_uses_first_occurrence {Coord : Type}
    (scale : Coord -> Coord) (dist : Coord -> Coord -> R) :
  (forall (gt_list pred_list : list Coord) (pred_ind_list : list nat)
          (gt_ind gt_val : nat) (rest : list nat) (total : R) (n : Z),
      (~ In gt_val pred_ind_list ->
       match_frames dist gt_list pred_list pred_ind_list gt_ind
         (gt_val :: rest) total n
       = match_frames dist gt_list pred_list pred_ind_list (S gt_ind)
           rest total n)
      /\ (forall (j : nat) (g p : Coord),
            nth_error pred_ind_list j = Some gt_val ->
            (forall k, (k < j)%nat -> nth_error pred_ind_list k <> Some gt_val) ->
            nth_error gt_list gt_ind = Some g ->
            nth_error pred_list j = Some p ->
            match_frames dist gt_list pred_list pred_ind_list gt_ind
              (gt_val :: rest) total n
            = match_frames dist gt_list pred_list pred_ind_list (S gt_ind)
                rest (total + dist g p)%R (n + 1)))
  /\ (forall (pred gt : annotations Coord) (block_cnt class_cnt : nat)
             (loc_FN loc_FP : Z) (s : SELDMetrics)
             (gt_b pred_b : gmap nat (list (track Coord)))
             (v : nat) (g : Coord) (gs : list Coord)
             (frames : list nat) (rows : list Coord) (p : Coord) (j : nat)
             (gt_more pred_more : list (track Coord)),
        gt !! block_cnt = Some gt_b ->
        pred !! block_cnt = Some pred_b ->
        gt_b !! class_cnt = Some (([v], g :: gs) :: gt_more) ->
        pred_b !! class_cnt = Some ((frames, rows) :: pred_more) ->
        nth_error frames j = Some v ->
        (forall k, (k < j)%nat -> nth_error frames k <> Some v) ->
        nth_error rows j = Some p ->
        _DE_TP (fst (class_step scale dist pred gt block_cnt class_cnt
                       (loc_FN, loc_FP) s)) = _DE_TP s + 1 /\
        _total_DE (fst (class_step scale dist pred gt block_cnt class_cnt
                          (loc_FN, loc_FP) s))
        = (_total_DE s + dist (scale g) (scale p))%R).
Proof.
  split.
  - intros gt_list pred_list pred_ind_list gt_ind gt_val rest total n. split.
    + intros Hnot. cbn [match_frames].
      rewrite (proj2 (index_of_absent gt_val pred_ind_list) Hnot). reflexivity.
    + intros j g p Hj Hfirst Hg Hp. cbn [match_frames].
      rewrite (index_of_is_first _ _ _ Hj Hfirst).
      unfold item. rewrite Hg, Hp. reflexivity.
  - intros pred gt block_cnt class_cnt loc_FN loc_FP s gt_b pred_b v g gs
           frames rows p j gt_more pred_more Hg Hp Hgc Hpc Hj Hfirst Hrow.
    assert (Hm : matched_distance scale dist
                   (([v], g :: gs) :: gt_more) ((frames, rows) :: pred_more)
                 = Ok ((0 + dist (scale g) (scale p))%R, 0 + 1)).
    { unfold matched_distance, locations, frame_indices, first, squeeze.
      cbn [fst snd].
      destruct rows as [| r rows]; [destruct j; discriminate |].
      cbn [match_frames].
      rewrite (index_of_is_first _ _ _ Hj Hfirst).
      unfold item.
      rewrite (nth_error_map scale j (r :: rows)), Hrow. reflexivity. }
    rewrite (class_step_matched _ _ _ _ _ _ _ _ _ _ _ _ _ _ _
               Hg Hp Hgc Hpc Hm ltac:(lia)).
    change (0 + 1) with 1.
    destruct (Rleb _ _); cbn [fst _DE_TP _total_DE add_TP add_FN add_DE_TP
                              add_total_DE add_Nsys add_Nref];
      (split; [reflexivity | lra]).
Qed.

(** A prediction that lists frame 0 twice, first along the x axis and then
    opposite to it, against a reference along the x axis: the first row is
    the one compared, so the class adds a distance of 0, not of 60. *)
Lemma frame_loop_uses_first_occurrence_witness :
  _total_DE (fst (class_step (fun c => c) dist_xyz
                    (one_class track_twice) (one_class track_x) 0 0 (0, 0)
                    (init 20 1)))
  = (0 + dist_xyz (1, 0, 0) (1, 0, 0))%R.
Proof.
  refine (proj2 (proj2 (frame_loop_uses_first_occurrence (fun c => c) dist_xyz)
                   (one_class track_twice) (one_class track_x) 0%nat 0%nat 0 0
                   (init 20 1) {[ 0%nat := [track_x] ]}
                   {[ 0%nat := [track_twice] ]}
                   0%nat (1, 0, 0)%R [] [0%nat; 0%nat]
                   [(1, 0, 0)%R; (-1, 0, 0)%R] (1, 0, 0)%R 0%nat [] []
                   eq_refl eq_refl eq_refl eq_refl eq_refl _ eq_refl)).
  intros k Hk. lia.
Defined.
